(** * interpol-calc: interpolation and differentiation of tabulated functions

    A shallow embedding of the numerical core of the calculator
    (validation, grid utilities, Lagrange and Newton interpolation, the two
    five-point derivative estimators and the two comparison summaries),
    followed by the properties of the specification that concern them.

    Numbers.  A JavaScript [number] is modelled as [number K]: a finite value
    of an ordered field [K] (exact arithmetic, no rounding) or one of the
    three non-finite values.  The validators run on [number]; the arithmetic
    kernels run on [K], because the entry points reach them only after the
    validators have established that every value involved is finite, and
    every division they then perform has a non-zero divisor.  Computed
    results are therefore values of [K].

    Consequences of this choice.  A property that concerns the value of an
    arithmetic result (an interpolated value, a derivative, a mean) holds in
    exact arithmetic and says so; the doubles of the program satisfy it up
    to rounding and as long as nothing overflows.  A property that concerns
    tests, branches, errors and the shape of results is stated through the
    expressions the code itself evaluates and compares.  On repeated nodes
    the kernels divide by zero, and reading past the end of an array gives
    [undefined]: the model has no counterpart of the resulting infinities
    and [NaN]s, so the properties of the kernels assume distinct nodes and
    arrays of the right length.  The two tolerance literals of the
    finite-difference method are parameters ([Literals]).

    Arrays are sequences, read with [nth]; the default stands for the
    [undefined] of an out-of-range read ([NaN] in a comparison).  Exceptions
    are values of [result]; [try]/[catch] is [catch].

    The second part covers the dispatchers and the reader of data files.
    There a string is the sequence of its UTF-16 code units, and the
    conversion [Number] of a string to a number is a parameter. *)

From Stdlib Require Import ZArith Lia String Ascii Permutation.
From HB Require Import structures.
From mathcomp Require Import boot order.
From mathcomp Require Import ssralg ssrnum ssrint rat poly.
From mathcomp Require Import ring_tactic field_tactic arithmetic_tactic.

Set Implicit Arguments.
Unset Strict Implicit.
Unset Printing Implicit Defensive.

Import Order.Theory GRing.Theory Num.Theory.

Delimit Scope Z_scope with coqZ.
Delimit Scope N_scope with binN.
Local Open Scope ring_scope.

(** ** Errors (types/errors.ts)

    The two error classes of the source.  A [TabularDataError] carries its
    message; the messages are kept as tags, one per [throw] site. *)

Inductive message :=
  | EmptyArray          (* "Cannot find nearest index in an empty array." *)
  | StencilNeedsFive    (* "At least 5 points are required to build a 5-point stencil." *)
  | LengthMismatch      (* "Arrays x and f must have the same length." *)
  | TooFewPoints        (* "Tabular data must contain at least N points." *)
  | NotIncreasing       (* "Array x must be strictly increasing." *)
  | InvalidTableValue   (* "Tabular data contains invalid numeric values." *)
  | EmptyPoints         (* "Points to evaluate (X) must be a non-empty array." *)
  | InvalidPointValue   (* "Points to evaluate (X) contain invalid numeric values." *)
  | OutOfRange          (* "Point X = ... is outside of the tabular data range ..." *)
  | MethodNeedsPoints   (* "Method ... requires at least N points in the table." *)
  | FormulaNeedsFive    (* "At least 5 points are required to apply 5-point finite difference formulas." *)
  | NotUniform          (* "Approximation method requires an almost uniform grid in x." *)
  | NotNearNode.        (* "Approximation method supports only points X that are close to tabular nodes. ..." *)

Inductive error :=
  | TabularDataError (msg : message)
  | MethodNotSupportedError.

Inductive result (A : Type) :=
  | Ok (a : A)
  | Err (e : error).

Arguments Ok {A} a.
Arguments Err {A} e.

Definition bind {A B : Type} (r : result A) (k : A -> result B) : result B :=
  match r with
  | Ok a => k a
  | Err e => Err e
  end.

Notation "'do' a <- r ; k" := (bind r (fun a => k))
  (at level 200, a name, r at level 100, k at level 200, right associativity).
Notation "r ;; k" := (bind r (fun _ => k))
  (at level 100, k at level 200, right associativity).

Definition isOk {A : Type} (r : result A) : bool :=
  if r is Ok _ then true else false.

Definition isDataError {A : Type} (r : result A) : bool :=
  if r is Err (TabularDataError _) then true else false.

(** [try { r = call } catch { r = null }] *)
Definition catch {A : Type} (r : result A) : option A :=
  if r is Ok a then Some a else None.

(** ** Numbers and the data model (types/tabular.ts) *)

Inductive number (K : Type) :=
  | Fin (r : K)
  | PosInf
  | NegInf
  | NaN.

Arguments Fin {K} r.
Arguments PosInf {K}.
Arguments NegInf {K}.
Arguments NaN {K}.

Module TabularFunction.
Record t (K : Type) := mk { x : seq (number K); f : seq (number K) }.
End TabularFunction.

Module InterpolationResult.
Record t (K : Type) := mk { X : seq (number K); F : seq K }.
End InterpolationResult.

Module DerivativeResult.
Record t (K : Type) := mk { X : seq (number K); Fd : seq K }.
End DerivativeResult.

(** types/interpolation.ts *)
Module InterpolationComparisonRow.
Record t (K : Type) := mk
  { X : number K; lagrange : K; newton : K; absDiff : K }.
End InterpolationComparisonRow.

Module InterpolationMethodsSummary.
Record t (K : Type) := mk
  { rows : seq (InterpolationComparisonRow.t K);
    meanAbsDiff : K;
    maxAbsDiff : K }.
End InterpolationMethodsSummary.

(** types/differentiation.ts; [None] is the source's [null]. *)
Module DifferentiationComparisonRow.
Record t (K : Type) := mk
  { X : number K;
    interpolation5 : option K;
    approximation5 : option K;
    absDiff : option K }.
End DifferentiationComparisonRow.

Module DifferentiationMethodsSummary.
Record t (K : Type) := mk
  { rows : seq (DifferentiationComparisonRow.t K);
    meanAbsDiff : option K;
    maxAbsDiff : option K }.
End DifferentiationMethodsSummary.

(** ** The tolerance literals (modules/differentiation/approximation5.ts)

    [differentiateByApproximation5] passes the literal [1e-6] to
    [getApproximateStep] and multiplies the step by the literal [1e-3].  In
    the source these denote the doubles nearest to the two decimal fractions,
    not the fractions themselves, so their values are left open: what is
    proved holds for every value of the two literals, and a property that
    needs their sign has it as a hypothesis. *)
Class Literals (K : Type) := { gridTolerance : K; nodeFactor : K }.

Section Core.

Variable K : realFieldType.
Context {literals : Literals K}.

Implicit Types (x f coef : seq K) (h : K).

(** *** Number tests *)

(** [Number.isFinite] *)
Definition isFinite (v : number K) : bool :=
  if v is Fin _ then true else false.

(** The finite part of a number; applied to validated values only. *)
Definition value_of (v : number K) : K :=
  if v is Fin r then r else 0.

(** [a <= b] and [a < b] on numbers: every comparison with [NaN] is false. *)
Definition num_le (a b : number K) : bool :=
  match a, b with
  | NaN, _ | _, NaN => false
  | Fin r, Fin s => r <= s
  | NegInf, _ => true
  | _, PosInf => true
  | _, _ => false
  end.

Definition num_lt (a b : number K) : bool :=
  match a, b with
  | NaN, _ | _, NaN => false
  | Fin r, Fin s => r < s
  | NegInf, NegInf => false
  | NegInf, _ => true
  | PosInf, _ => false
  | Fin _, PosInf => true
  | Fin _, NegInf => false
  end.

(** ** Grid utilities (modules/tabularUtils.ts) *)

Definition findNearestIndex x (Xk : K) : result nat :=
  if size x == 0%N then Err (TabularDataError EmptyArray)
  else
    let step (st : nat * K) (i : nat) :=
      let: (nearestIndex, minDist) := st in
      let dist := `|nth 0 x i - Xk| in
      if dist < minDist then (i, dist) else (nearestIndex, minDist) in
    Ok (foldl step (0%N, `|nth 0 x 0 - Xk|) (iota 1 (size x - 1))).1.

Definition getApproximateStep x (tolerance : K) : option K :=
  if (size x < 2)%N then None
  else
    let steps := [seq nth 0 x i - nth 0 x i.-1 | i <- iota 1 (size x - 1)] in
    let h := foldl (fun sum value => sum + value) 0 steps / (size steps)%:R in
    if has (fun step => `|step - h| > tolerance) steps then None
    else Some h.

(** The source takes the table and reads only its nodes [x].  The start of
    the window is an integer that may be negative before the first clamp. *)
Definition get5PointStencilIndices x (Xk : K) : result (seq Z) :=
  if (size x < 5)%N then Err (TabularDataError StencilNeedsFive)
  else
    do nearest <- findNearestIndex x Xk;
    let start := (Z.of_nat nearest - 2)%coqZ in
    let start := if (start <? 0)%coqZ then 0%coqZ else start in
    let start :=
      if (start + 4 >=? Z.of_nat (size x))%coqZ
      then (Z.of_nat (size x) - 5)%coqZ else start in
    Ok [seq (start + Z.of_nat i)%coqZ | i <- iota 0 5].

(** ** Validation (modules/validation.ts) *)

Definition isStrictlyIncreasing (arr : seq (number K)) : bool :=
  all (fun i => ~~ num_le (nth NaN arr i) (nth NaN arr i.-1))
      (iota 1 (size arr - 1)).

(** [minPoints] is the option of the source, 2 when the caller gives none.
    The [Array.isArray] tests hold by typing. *)
Definition validateTabular (table : TabularFunction.t K) (minPoints : nat)
  : result unit :=
  let x := TabularFunction.x table in
  let f := TabularFunction.f table in
  if size x != size f then Err (TabularDataError LengthMismatch)
  else if (size x < minPoints)%N then Err (TabularDataError TooFewPoints)
  else if ~~ isStrictlyIncreasing x then Err (TabularDataError NotIncreasing)
  else if has (fun i => ~~ isFinite (nth NaN x i) || ~~ isFinite (nth NaN f i))
              (iota 0 (size x))
       then Err (TabularDataError InvalidTableValue)
  else Ok tt.

Definition validatePointsToEvaluate (table : TabularFunction.t K)
    (X : seq (number K)) (requireInRange : bool) : result unit :=
  if size X == 0%N then Err (TabularDataError EmptyPoints)
  else if has (fun value => ~~ isFinite value) X
       then Err (TabularDataError InvalidPointValue)
  else if requireInRange then
    let minX := nth NaN (TabularFunction.x table) 0 in
    let maxX :=
      nth NaN (TabularFunction.x table) (size (TabularFunction.x table) - 1) in
    if has (fun value => num_lt value minX || num_lt maxX value) X
    then Err (TabularDataError OutOfRange)
    else Ok tt
  else Ok tt.

(** The method name of the source only appears in the message. *)
Definition validateMinPointsForMethod (table : TabularFunction.t K)
    (requiredPoints : nat) : result unit :=
  if (size (TabularFunction.x table) < requiredPoints)%N
  then Err (TabularDataError MethodNeedsPoints)
  else Ok tt.

(** ** Lagrange interpolation (modules/interpolation/lagrange.ts) *)

Definition interpolateLagrangeAtPoint x f (Xk : K) : K :=
  let n := size x in
  foldl (fun value i =>
           let Li :=
             foldl (fun Li j =>
                      if j == i then Li
                      else Li * ((Xk - nth 0 x j) / (nth 0 x i - nth 0 x j)))
                   1 (iota 0 n) in
           value + nth 0 f i * Li)
        0 (iota 0 n).

Definition interpolateLagrange (table : TabularFunction.t K)
    (X : seq (number K)) : result (InterpolationResult.t K) :=
  validateTabular table 2 ;;
  validatePointsToEvaluate table X false ;;
  let x := map value_of (TabularFunction.x table) in
  let f := map value_of (TabularFunction.f table) in
  Ok (InterpolationResult.mk X
        [seq interpolateLagrangeAtPoint x f (value_of Xk) | Xk <- X]).

(** ** Newton interpolation (modules/interpolation/newton.ts) *)

(** The coefficient array is a copy of [f], updated in place: pass [j] runs
    [i] from [n-1] down to [j]. *)
Definition buildNewtonCoefficients x f : seq K :=
  let n := size x in
  foldl (fun coef j =>
           foldl (fun coef i =>
                    set_nth 0 coef i
                      ((nth 0 coef i - nth 0 coef i.-1)
                         / (nth 0 x i - nth 0 x (i - j))))
                 coef (rev (iota j (n - j))))
        f (iota 1 (n - 1)).

Definition evaluateNewtonAtPoint x coef (Xk : K) : K :=
  let n := size x in
  foldl (fun result i => result * (Xk - nth 0 x i) + nth 0 coef i)
        (nth 0 coef (n - 1)) (rev (iota 0 (n - 1))).

Definition interpolateNewton (table : TabularFunction.t K)
    (X : seq (number K)) : result (InterpolationResult.t K) :=
  validateTabular table 2 ;;
  validatePointsToEvaluate table X false ;;
  let x := map value_of (TabularFunction.x table) in
  let f := map value_of (TabularFunction.f table) in
  let coef := buildNewtonCoefficients x f in
  Ok (InterpolationResult.mk X
        [seq evaluateNewtonAtPoint x coef (value_of Xk) | Xk <- X]).

(** ** Derivative by local interpolation
       (modules/differentiation/interpolation5.ts) *)

Definition computeLagrangeDerivativeAtPoint x f (Xk : K) : K :=
  let n := size x in
  foldl (fun derivative i =>
           let LiPrimeAtXk :=
             foldl (fun LiPrimeAtXk m =>
                      if m == i then LiPrimeAtXk
                      else
                        let term :=
                          foldl (fun term j =>
                                   if (j == i) || (j == m) then term
                                   else term * ((Xk - nth 0 x j)
                                                  / (nth 0 x i - nth 0 x j)))
                                (1 / (nth 0 x i - nth 0 x m)) (iota 0 n) in
                        LiPrimeAtXk + term)
                   0 (iota 0 n) in
           derivative + nth 0 f i * LiPrimeAtXk)
        0 (iota 0 n).

(** A [for ... of] loop whose body may throw: left to right, stopping at the
    first error. *)
Fixpoint forEach {A B : Type} (body : A -> result B) (s : seq A)
  : result (seq B) :=
  match s with
  | [::] => Ok [::]
  | a :: s' => do b <- body a; do bs <- forEach body s'; Ok (b :: bs)
  end.

(** [indices.map((i) => x[i])] *)
Definition pick x (indices : seq Z) : seq K :=
  [seq nth 0 x (Z.to_nat i) | i <- indices].

Definition differentiateByInterpolation5 (table : TabularFunction.t K)
    (X : seq (number K)) : result (DerivativeResult.t K) :=
  validateTabular table 5 ;;
  validateMinPointsForMethod table 5 ;;
  validatePointsToEvaluate table X true ;;
  let x := map value_of (TabularFunction.x table) in
  let f := map value_of (TabularFunction.f table) in
  do Fd <- forEach (fun Xk =>
                      do indices <- get5PointStencilIndices x (value_of Xk);
                      let xLocal := pick x indices in
                      let fLocal := pick f indices in
                      Ok (computeLagrangeDerivativeAtPoint
                            xLocal fLocal (value_of Xk)))
                   X;
  Ok (DerivativeResult.mk X Fd).

(** ** Derivative by finite differences
       (modules/differentiation/approximation5.ts) *)

Definition finiteDifference5AtIndex f (i : nat) h : result K :=
  let n := size f in
  let f_ k := nth 0 f k in
  if (n < 5)%N then Err (TabularDataError FormulaNeedsFive)
  else if i == 0%N then
    Ok ((- 25%:R * f_ 0%N + 48%:R * f_ 1%N - 36%:R * f_ 2%N
         + 16%:R * f_ 3%N - 3%:R * f_ 4%N) / (12%:R * h))
  else if i == 1%N then
    Ok ((- 3%:R * f_ 0%N - 10%:R * f_ 1%N + 18%:R * f_ 2%N
         - 6%:R * f_ 3%N + f_ 4%N) / (12%:R * h))
  else if i == (n - 2)%N then
    Ok ((3%:R * f_ (n - 1)%N + 10%:R * f_ (n - 2)%N - 18%:R * f_ (n - 3)%N
         + 6%:R * f_ (n - 4)%N - f_ (n - 5)%N) / (12%:R * h))
  else if i == (n - 1)%N then
    Ok ((25%:R * f_ (n - 1)%N - 48%:R * f_ (n - 2)%N + 36%:R * f_ (n - 3)%N
         - 16%:R * f_ (n - 4)%N + 3%:R * f_ (n - 5)%N) / (12%:R * h))
  else
    Ok ((f_ (i - 2)%N - 8%:R * f_ (i - 1)%N + 8%:R * f_ (i + 1)%N
         - f_ (i + 2)%N) / (12%:R * h)).

(** [gridTolerance] and [nodeFactor] stand for the literals [1e-6] and
    [1e-3].  [h] is a field element here, so the source's [!Number.isFinite(h)] test
    never fires and is not represented. *)
Definition differentiateByApproximation5 (table : TabularFunction.t K)
    (X : seq (number K)) : result (DerivativeResult.t K) :=
  validateTabular table 5 ;;
  validateMinPointsForMethod table 5 ;;
  let x := map value_of (TabularFunction.x table) in
  let f := map value_of (TabularFunction.f table) in
  match getApproximateStep x gridTolerance with
  | None => Err (TabularDataError NotUniform)
  | Some h =>
    if `|h| == 0 then Err (TabularDataError NotUniform)
    else
      validatePointsToEvaluate table X true ;;
      let nodeTolerance := `|h| * nodeFactor in
      do Fd <- forEach (fun Xk =>
                          do idx <- findNearestIndex x (value_of Xk);
                          let distance := `|value_of Xk - nth 0 x idx| in
                          if distance > nodeTolerance
                          then Err (TabularDataError NotNearNode)
                          else finiteDifference5AtIndex f idx h)
                       X;
      Ok (DerivativeResult.mk X Fd)
  end.

(** ** Comparison of the differentiation methods
       (modules/differentiation/methodsSummary.ts) *)

(** [r && r.Fd[i] != null ? r.Fd[i] : null]: an index past the end of [Fd]
    reads [undefined], which is [== null]. *)
Definition valueAt (r : option (DerivativeResult.t K)) (i : nat) : option K :=
  if r is Some r' then onth (DerivativeResult.Fd r') i
  else None.

(** The part of the function after the two [try] blocks. *)
Definition compareDerivatives
    (interpolationResult approximationResult : option (DerivativeResult.t K))
    (X : seq (number K)) : DifferentiationMethodsSummary.t K :=
  let step (st : seq (DifferentiationComparisonRow.t K) * K * K * nat)
           (i : nat) :=
    let: (rows, sumAbsDiff, maxAbsDiff, countForStats) := st in
    let xValue := nth NaN X i in
    let vInterp := valueAt interpolationResult i in
    let vApprox := valueAt approximationResult i in
    match vInterp, vApprox with
    | Some vi, Some va =>
      let absDiff := `|vi - va| in
      (rcons rows
         (DifferentiationComparisonRow.mk xValue vInterp vApprox (Some absDiff)),
       sumAbsDiff + absDiff,
       if absDiff > maxAbsDiff then absDiff else maxAbsDiff,
       countForStats.+1)
    | _, _ =>
      (rcons rows (DifferentiationComparisonRow.mk xValue vInterp vApprox None),
       sumAbsDiff, maxAbsDiff, countForStats)
    end in
  let: (rows, sumAbsDiff, maxAbsDiff, countForStats) :=
    foldl step ([::], 0, 0, 0%N) (iota 0 (size X)) in
  let meanAbsDiff :=
    if (countForStats > 0)%N then Some (sumAbsDiff / countForStats%:R)
    else None in
  let hasStats := (countForStats > 0)%N in
  DifferentiationMethodsSummary.mk rows
    (if hasStats then meanAbsDiff else None)
    (if hasStats then Some maxAbsDiff else None).

Definition buildDifferentiationMethodsSummary (table : TabularFunction.t K)
    (X : seq (number K)) : DifferentiationMethodsSummary.t K :=
  let interpolationResult := catch (differentiateByInterpolation5 table X) in
  let approximationResult := catch (differentiateByApproximation5 table X) in
  compareDerivatives interpolationResult approximationResult X.

(** ** Comparison of the interpolation methods
       (modules/interpolation/methodsSummary.ts) *)

(** The part of the function after the two calls: the loop over the points
    and the two aggregates. *)
Definition compareInterpolations
    (lagrangeResult newtonResult : InterpolationResult.t K)
    (X : seq (number K)) : InterpolationMethodsSummary.t K :=
  let step (st : seq (InterpolationComparisonRow.t K) * K * K) (i : nat) :=
    let: (rows, sumAbsDiff, maxAbsDiff) := st in
    let xValue := nth NaN X i in
    let vL := nth 0 (InterpolationResult.F lagrangeResult) i in
    let vN := nth 0 (InterpolationResult.F newtonResult) i in
    let absDiff := `|vL - vN| in
    (rcons rows (InterpolationComparisonRow.mk xValue vL vN absDiff),
     sumAbsDiff + absDiff,
     if absDiff > maxAbsDiff then absDiff else maxAbsDiff) in
  let: (rows, sumAbsDiff, maxAbsDiff) :=
    foldl step ([::], 0, 0) (iota 0 (size X)) in
  let meanAbsDiff :=
    if (size X > 0)%N then sumAbsDiff / (size X)%:R else 0 in
  InterpolationMethodsSummary.mk rows meanAbsDiff maxAbsDiff.

Definition buildInterpolationMethodsSummary (table : TabularFunction.t K)
    (X : seq (number K)) : result (InterpolationMethodsSummary.t K) :=
  do lagrangeResult <- interpolateLagrange table X;
  do newtonResult <- interpolateNewton table X;
  Ok (compareInterpolations lagrangeResult newtonResult X).

End Core.

(** ** Notions used to state the properties

    The polynomials behind the two interpolation kernels, the contents of
    Newton's coefficient array between passes, and tables of finite
    numbers. *)

Section Notions.

Variable K : realFieldType.
Context {literals : Literals K}.

Implicit Types (x f : seq K) (t h : K) (X : seq (number K)).

Definition lagrangeBasis x (i : nat) : {poly K} :=
  \prod_(j <- iota 0 (size x) | j != i)
     ((nth 0 x i - nth 0 x j)^-1 *: ('X - (nth 0 x j)%:P)).

Definition lagrangePoly x f : {poly K} :=
  \sum_(i <- iota 0 (size x)) nth 0 f i *: lagrangeBasis x i.

(** Divided difference of [f] on the [m+1] nodes [x_lo .. x_(lo+m)]. *)
Fixpoint dividedDifference x f (lo m : nat) : K :=
  if m is m'.+1 then
    (dividedDifference x f lo.+1 m' - dividedDifference x f lo m')
      / (nth 0 x (lo + m'.+1) - nth 0 x lo)
  else nth 0 f lo.

(** Contents of the coefficient array after pass [j]. *)
Definition coefAfter x f (j : nat) : seq K :=
  mkseq (fun i => dividedDifference x f (i - minn i j) (minn i j)) (size x).

(** Contents during pass [j.+1], once the indices [i0 ..] have been updated. *)
Definition coefDuring x f (j i0 : nat) : seq K :=
  mkseq (fun i => if (i0 <= i)%N then dividedDifference x f (i - j.+1) j.+1
                  else dividedDifference x f (i - minn i j) (minn i j))
        (size x).

Definition newtonBasis x (lo m : nat) : {poly K} :=
  \prod_(0 <= j < m) ('X - (nth 0 x (lo + j))%:P).

Definition newtonPoly x f (lo k : nat) : {poly K} :=
  \sum_(0 <= m < k.+1) dividedDifference x f lo m *: newtonBasis x lo m.

(** The polynomial that Neville's recurrence builds from the Newton forms on
    the nodes [lo+1 .. lo+k+1] and [lo .. lo+k]. *)
Definition nevillePoly x f (lo k : nat) : {poly K} :=
  (nth 0 x (lo + k.+1) - nth 0 x lo)^-1
    *: (('X - (nth 0 x lo)%:P) * newtonPoly x f lo.+1 k
        - ('X - (nth 0 x (lo + k.+1))%:P) * newtonPoly x f lo k).

(** The table whose nodes and values are the finite numbers [x] and [f]. *)
Definition finiteTable x f : TabularFunction.t K :=
  TabularFunction.mk (map Fin x) (map Fin f).

(** One iteration of the scan in [findNearestIndex]. *)
Definition nearestStep x (Xk : K) (st : nat * K) (i : nat) : nat * K :=
  let: (nearestIndex, minDist) := st in
  let dist := `|nth 0 x i - Xk| in
  if dist < minDist then (i, dist) else (nearestIndex, minDist).

(** Evaluation points given as finite values inside the node span. *)
Definition inSpan x t : bool := (nth 0 x 0 <= t) && (t <= nth 0 x (size x).-1).

(** The five formulas of the specification, selected in the order in which
    the specification lists the index ranges. *)
Definition specFiniteDifference5 f (i : nat) h : option K :=
  let n := size f in
  let f_ k := nth 0 f k in
  if i == 0%N then
    Some ((- 25%:R * f_ 0%N + 48%:R * f_ 1%N - 36%:R * f_ 2%N
           + 16%:R * f_ 3%N - 3%:R * f_ 4%N) / (12%:R * h))
  else if i == 1%N then
    Some ((- 3%:R * f_ 0%N - 10%:R * f_ 1%N + 18%:R * f_ 2%N
           - 6%:R * f_ 3%N + f_ 4%N) / (12%:R * h))
  else if (2 <= i)%N && (i <= n - 3)%N then
    Some ((f_ (i - 2)%N - 8%:R * f_ (i - 1)%N + 8%:R * f_ (i + 1)%N
           - f_ (i + 2)%N) / (12%:R * h))
  else if i == (n - 2)%N then
    Some ((3%:R * f_ (n - 1)%N + 10%:R * f_ (n - 2)%N - 18%:R * f_ (n - 3)%N
           + 6%:R * f_ (n - 4)%N - f_ (n - 5)%N) / (12%:R * h))
  else if i == (n - 1)%N then
    Some ((25%:R * f_ (n - 1)%N - 48%:R * f_ (n - 2)%N + 36%:R * f_ (n - 3)%N
           - 16%:R * f_ (n - 4)%N + 3%:R * f_ (n - 5)%N) / (12%:R * h))
  else None.

(** The five index ranges of the specification. *)
Definition formulaRanges (n i : nat) : seq bool :=
  [:: i == 0%N; i == 1%N; (2 <= i)%N && (i <= n - 3)%N;
      i == (n - 2)%N; i == (n - 1)%N].

(** The mean spacing as [getApproximateStep] computes it: the running sum of
    the consecutive spacings, divided by their number. *)
Definition meanSpacing x : K :=
  let steps := [seq nth 0 x i - nth 0 x i.-1 | i <- iota 1 (size x - 1)] in
  foldl (fun sum value => sum + value) 0 steps / (size steps)%:R.

(** Some consecutive spacing deviates from the mean by more than [tolerance]. *)
Definition nonUniform x (tolerance : K) : bool :=
  has (fun i => `|(nth 0 x i - nth 0 x i.-1) - meanSpacing x| > tolerance)
      (iota 1 (size x - 1)).

(** Every node is farther from [t] than the node tolerance of step [h]. *)
Definition farFromNodes x h t : bool :=
  all (fun u => `|t - u| > `|h| * nodeFactor) x.


(** The finite-difference value at the node nearest to [t]. *)
Definition approximationAt x f h t : K :=
  if findNearestIndex x t is Ok idx then
    if finiteDifference5AtIndex f idx h is Ok v then v else 0
  else 0.

(** Row [i] of the differentiation summary. *)
Definition derivativeRow (ri ra : option (DerivativeResult.t K))
    (X : seq (number K)) (i : nat) : DifferentiationComparisonRow.t K :=
  DifferentiationComparisonRow.mk (nth NaN X i) (valueAt ri i) (valueAt ra i)
    (if valueAt ri i is Some vi then
       if valueAt ra i is Some va then Some `|vi - va| else None
     else None).

(** Both methods produced a value at index [i]. *)
Definition bothAt (ri ra : option (DerivativeResult.t K)) (i : nat) : bool :=
  valueAt ri i && valueAt ra i.

(** One iteration of the loop of [compareDerivatives]. *)
Definition compareStep (ri ra : option (DerivativeResult.t K))
    (X : seq (number K))
    (st : seq (DifferentiationComparisonRow.t K) * K * K * nat) (i : nat) :=
  let: (rows, sumAbsDiff, maxAbsDiff, countForStats) := st in
  let xValue := nth NaN X i in
  let vInterp := valueAt ri i in
  let vApprox := valueAt ra i in
  match vInterp, vApprox with
  | Some vi, Some va =>
    let absDiff := `|vi - va| in
    (rcons rows
       (DifferentiationComparisonRow.mk xValue vInterp vApprox (Some absDiff)),
     sumAbsDiff + absDiff,
     if absDiff > maxAbsDiff then absDiff else maxAbsDiff,
     countForStats.+1)
  | _, _ =>
    (rcons rows (DifferentiationComparisonRow.mk xValue vInterp vApprox None),
     sumAbsDiff, maxAbsDiff, countForStats)
  end.

(** One iteration of the loop of [compareInterpolations]. *)
Definition interpolationStep (lagrangeResult newtonResult : InterpolationResult.t K)
    X (st : seq (InterpolationComparisonRow.t K) * K * K) (i : nat) :=
  let: (rows, sumAbsDiff, maxAbsDiff) := st in
  let xValue := nth NaN X i in
  let vL := nth 0 (InterpolationResult.F lagrangeResult) i in
  let vN := nth 0 (InterpolationResult.F newtonResult) i in
  let absDiff := `|vL - vN| in
  (rcons rows (InterpolationComparisonRow.mk xValue vL vN absDiff),
   sumAbsDiff + absDiff,
   if absDiff > maxAbsDiff then absDiff else maxAbsDiff).

(** Row [i] of the interpolation summary and its absolute difference. *)
Definition interpolationDiff (rl rn : InterpolationResult.t K) (i : nat) : K :=
  `|nth 0 (InterpolationResult.F rl) i - nth 0 (InterpolationResult.F rn) i|.

Definition interpolationRow (rl rn : InterpolationResult.t K) X (i : nat) :=
  InterpolationComparisonRow.mk (nth NaN X i)
    (nth 0 (InterpolationResult.F rl) i) (nth 0 (InterpolationResult.F rn) i)
    (interpolationDiff rl rn i).

(** The running maximum kept by both summaries. *)
Definition runningMax (d : nat -> K) (m0 : K) (l : seq nat) : K :=
  foldl (fun m i => if d i > m then d i else m) m0 l.

End Notions.

(** ** Sample data (from the test suite), over the rationals *)

Definition quadraticNodes : seq rat := [:: -1; 0; 2%:R].
Definition quadraticValues : seq rat := [:: 2%:R; 3%:R; 11%:R].
Definition quadraticPoly : {poly rat} := 'X^2 + 2%:R *: 'X + 3%:R%:P.

Definition quarticNodes : seq rat := [:: - 2%:R; -1; 0; 1; 2%:R].
Definition quarticPoly : {poly rat} := 'X^4 - 2%:R *: 'X^3 + 'X - 1.
Definition quartic (u : rat) : rat := u ^+ 4 - 2%:R * u ^+ 3 + u - 1.
Definition quarticDerivative (u : rat) : rat :=
  4%:R * u ^+ 3 - 6%:R * u ^+ 2 + 1.
Definition quarticValues : seq rat := [seq quartic u | u <- quarticNodes].
Definition midPoints : seq rat :=
  [:: - 3%:R / 2%:R; - 1 / 2%:R; 1 / 2%:R; 3%:R / 2%:R].
Definition outsidePoints : seq rat := [:: 0; 5%:R].
Definition unevenNodes : seq rat := [:: 0; 1; 2%:R; 3%:R; 5%:R].
Definition unevenValues : seq rat := [:: 0; 1; 4%:R; 9%:R; 25%:R].
Definition malformedTable : TabularFunction.t rat :=
  TabularFunction.mk [:: Fin 1; NaN] [:: Fin 0].
Definition oddPoints : seq (number rat) := [:: NaN; Fin 7%:R].

(** For the sample computations the two literals take their decimal
    values. *)
#[global]
Instance decimalLiterals : Literals rat :=
  {| gridTolerance := (10%:R ^+ 6)^-1; nodeFactor := (10%:R ^+ 3)^-1 |}.

(** ** Raw wrappers and dispatchers
       (the [...Raw] functions of the method modules,
        modules/interpolation/index.ts, modules/differentiation/index.ts)

    A method name is a string; the [switch] compares it with the names of
    the supported methods and falls to [default] for any other value. *)

Section EntryPoints.

Variable K : realFieldType.
Context {literals : Literals K}.

Implicit Types (x f X : seq (number K)) (table : TabularFunction.t K).

Definition interpolateLagrangeRaw x f X : result (seq K) :=
  let table := TabularFunction.mk x f in
  do r <- interpolateLagrange table X;
  Ok (InterpolationResult.F r).

Definition interpolateNewtonRaw x f X : result (seq K) :=
  let table := TabularFunction.mk x f in
  do r <- interpolateNewton table X;
  Ok (InterpolationResult.F r).

Definition differentiateByInterpolation5Raw x f X : result (seq K) :=
  let table := TabularFunction.mk x f in
  do r <- differentiateByInterpolation5 table X;
  Ok (DerivativeResult.Fd r).

Definition differentiateByApproximation5Raw x f X : result (seq K) :=
  let table := TabularFunction.mk x f in
  do r <- differentiateByApproximation5 table X;
  Ok (DerivativeResult.Fd r).

Definition interpolate (method : string) table X
  : result (InterpolationResult.t K) :=
  if String.eqb method "lagrange" then interpolateLagrange table X
  else if String.eqb method "newton" then interpolateNewton table X
  else Err MethodNotSupportedError.

Definition interpolateRaw (method : string) x f X : result (seq K) :=
  if String.eqb method "lagrange" then interpolateLagrangeRaw x f X
  else if String.eqb method "newton" then interpolateNewtonRaw x f X
  else Err MethodNotSupportedError.

Definition differentiate (method : string) table X
  : result (DerivativeResult.t K) :=
  if String.eqb method "interpolation5"
  then differentiateByInterpolation5 table X
  else if String.eqb method "approximation5"
  then differentiateByApproximation5 table X
  else Err MethodNotSupportedError.

Definition differentiateRaw (method : string) x f X : result (seq K) :=
  if String.eqb method "interpolation5"
  then differentiateByInterpolation5Raw x f X
  else if String.eqb method "approximation5"
  then differentiateByApproximation5Raw x f X
  else Err MethodNotSupportedError.

End EntryPoints.

(** ** Notions used to state the further properties *)

(** The grid of [n] nodes [x0, x0 + h, x0 + 2h, ...]. *)
Definition uniformGrid (K : realFieldType) (x0 h : K) (n : nat) : seq K :=
  [seq x0 + k%:R * h | k <- iota 0 n].

(** The node that [findNearestIndex] selects for [t]. *)
Definition nearestNode (K : realFieldType) (x : seq K) (t : K) : K :=
  nth 0 x (if findNearestIndex x t is Ok i then i else 0%N).

(** The first index of the five-node window that [get5PointStencilIndices]
    selects for [t], and the window of an array. *)
Definition stencilStart (K : realFieldType) (x : seq K) (t : K) : nat :=
  if findNearestIndex x t is Ok nearest
  then minn (nearest - 2) (size x - 5) else 0%N.

Definition stencilWindow (K : realFieldType) (y : seq K) (s : nat) : seq K :=
  [seq nth 0 y i | i <- iota s 5].

(** The messages of [validateTabular], of the first two checks of
    [validatePointsToEvaluate], and the messages that each entry point can
    let through. *)
Definition tableMessage (m : message) : bool :=
  match m with
  | LengthMismatch | TooFewPoints | NotIncreasing | InvalidTableValue => true
  | _ => false
  end.

Definition pointsMessage (m : message) : bool :=
  match m with
  | EmptyPoints | InvalidPointValue => true
  | _ => false
  end.

Definition interpolationMessage (m : message) : bool :=
  tableMessage m || pointsMessage m.

Definition interpolation5Message (m : message) : bool :=
  interpolationMessage m || (if m is OutOfRange then true else false).

Definition approximation5Message (m : message) : bool :=
  interpolation5Message m
  || (match m with NotUniform | NotNearNode => true | _ => false end).

(** [r] is a result, or a [TabularDataError] whose message is [allowed]. *)
Definition failsOnlyWith {A : Type} (allowed : message -> bool)
    (r : result A) : bool :=
  match r with
  | Ok _ => true
  | Err (TabularDataError m) => allowed m
  | Err MethodNotSupportedError => false
  end.

(** A uniform grid for the sample quartic, and node indices on it. *)
Definition gridNodes : seq rat := uniformGrid (-1) (1 / 2%:R) 6.
Definition gridIndices : seq nat := [:: 0; 2; 5]%N.

(** A grid of step 10, whose node tolerance is 1/100, and points within
    that distance of its first two nodes. *)
Definition wideGrid : seq rat := uniformGrid 0 10%:R 6.
Definition nearPoints : seq rat := [:: 1 / 200%:R; 10%:R].

(** ** Reading a data file (modules/fileParsing.ts)

    A string is the sequence of its UTF-16 code units.  The parser throws
    [TabularDataError] with messages of its own, listed in [fileMessage];
    [Rejected msg] is that exception. *)

Inductive rowLabel := Row_x | Row_f | Row_X.

Inductive fileMessage :=
  | EmptyToken
  | NotNumeric
  | UnknownLabel
  | EmptyLine
  | LabelOnly
  | NoValues
  | DuplicateRow (label : rowLabel)
  | MissingRows.

Inductive fileResult (A : Type) :=
  | Parsed (a : A)
  | Rejected (msg : fileMessage).

Arguments Parsed {A} a.
Arguments Rejected {A} msg.

Definition andThen {A B : Type} (r : fileResult A) (k : A -> fileResult B)
  : fileResult B :=
  match r with
  | Parsed a => k a
  | Rejected msg => Rejected msg
  end.

Notation "'get' a <- r ; k" := (andThen r (fun a => k))
  (at level 200, a name, r at level 100, k at level 200, right associativity).

Definition isParsed {A : Type} (r : fileResult A) : bool :=
  if r is Parsed _ then true else false.

(** [WhiteSpace] and [LineTerminator] of ECMAScript: what [trim] removes and
    what [\s] matches. *)
Definition isWhiteSpace (c : N) : bool :=
  (c \in [:: 9; 10; 11; 12; 13; 32; 160; 5760; 8232; 8233; 8239; 8287;
             12288; 65279]%binN)
  || ((8192 <=? c)%binN && (c <=? 8202)%binN).

(** [[A-Za-z]] *)
Definition isLetter (c : N) : bool :=
  ((65 <=? c)%binN && (c <=? 90)%binN)
  || ((97 <=? c)%binN && (c <=? 122)%binN).

Definition trimStart (s : seq N) : seq N :=
  drop (find (fun c => ~~ isWhiteSpace c) s) s.

(** [s.trim()] *)
Definition trim (s : seq N) : seq N := rev (trimStart (rev (trimStart s))).

(** [s.split(/\s+/)]: the pieces between the maximal runs of white space;
    [cur] is the piece being read, reversed, and [inRun] tells that the
    previous code unit was white space. *)
Fixpoint splitRuns (s cur : seq N) (inRun : bool) : seq (seq N) :=
  match s with
  | [::] => [:: rev cur]
  | c :: s' =>
    if isWhiteSpace c then
      if inRun then splitRuns s' [::] true
      else rev cur :: splitRuns s' [::] true
    else splitRuns s' (c :: cur) false
  end.

Definition splitWhiteSpace (s : seq N) : seq (seq N) := splitRuns s [::] false.

(** [s.split(/\r?\n/)]: a line ends at each line feed; a carriage return
    just before it belongs to the separator. *)
Fixpoint splitLinesFrom (s cur : seq N) : seq (seq N) :=
  match s with
  | [::] => [:: rev cur]
  | c :: s' =>
    if c == 10%binN then
      rev (if cur is c' :: cur' then if c' == 13%binN then cur' else cur
           else cur)
        :: splitLinesFrom s' [::]
    else splitLinesFrom s' (c :: cur)
  end.

Definition splitLines (s : seq N) : seq (seq N) := splitLinesFrom s [::].

(** [s.replace(a, b)] for one-unit strings [a] and [b]: the first occurrence
    only. *)
Definition replaceFirst (a b : N) (s : seq N) : seq N :=
  let i := index a s in
  if (i < size s)%N then take i s ++ b :: drop i.+1 s else s.

(** [array.map(f)] for a callback that may throw. *)
Fixpoint mapParsed {A B : Type} (body : A -> fileResult B) (s : seq A)
  : fileResult (seq B) :=
  match s with
  | [::] => Parsed [::]
  | a :: s' =>
    get b <- body a; get bs <- mapParsed body s'; Parsed (b :: bs)
  end.

Module ParsedTabularFile.
Record t (K : Type) := mk { table : TabularFunction.t K; X : seq (number K) }.
End ParsedTabularFile.

Section FileParsing.

Variable K : realFieldType.

(** [Number(s)], the conversion of a string to a number, is a primitive of
    the language. *)
Variable Number : seq N -> number K.

Definition parseNumberToken (token : seq N) : fileResult (number K) :=
  let trimmed := trim token in
  if size trimmed == 0%N then Rejected EmptyToken
  else
    let normalized := replaceFirst 44 46 trimmed in
    let value := Number normalized in
    if ~~ isFinite value then Rejected NotNumeric
    else Parsed value.

Definition detectRowLabel (rawLabel : seq N) : fileResult rowLabel :=
  let label := trim rawLabel in
  let lettersOnly := filter isLetter label in
  if lettersOnly == [:: 120]%binN then Parsed Row_x
  else if lettersOnly == [:: 88]%binN then Parsed Row_X
  else if [|| lettersOnly == [:: 102]%binN,
              lettersOnly == [:: 102; 120]%binN
            | lettersOnly == [:: 70; 120]%binN]
  then Parsed Row_f
  else Rejected UnknownLabel.

Definition parseLabeledRow (line : seq N)
  : fileResult (rowLabel * seq (number K)) :=
  let trimmed := trim line in
  if size trimmed == 0%N then Rejected EmptyLine
  else
    let tokens := splitWhiteSpace trimmed in
    if (size tokens < 2)%N then Rejected LabelOnly
    else
      let rawLabel := head [::] tokens in
      let rawValues := behead tokens in
      get label <- detectRowLabel rawLabel;
      get values <- mapParsed parseNumberToken rawValues;
      if size values == 0%N then Rejected NoValues
      else Parsed (label, values).

(** The loop over the lines, with the three variables it assigns. *)
Fixpoint readRows (lines : seq (seq N))
    (xValues fValues XValues : option (seq (number K)))
  : fileResult (option (seq (number K)) * option (seq (number K))
                * option (seq (number K))) :=
  match lines with
  | [::] => Parsed (xValues, fValues, XValues)
  | rawLine :: rest =>
    let line := trim rawLine in
    if size line == 0%N then readRows rest xValues fValues XValues
    else
      get row <- parseLabeledRow line;
      let: (label, values) := row in
      match label with
      | Row_x =>
        if xValues is Some _ then Rejected (DuplicateRow Row_x)
        else readRows rest (Some values) fValues XValues
      | Row_f =>
        if fValues is Some _ then Rejected (DuplicateRow Row_f)
        else readRows rest xValues (Some values) XValues
      | Row_X =>
        if XValues is Some _ then Rejected (DuplicateRow Row_X)
        else readRows rest xValues fValues (Some values)
      end
  end.

(** The part of [parseTabularFile] after the split into lines. *)
Definition parseLines (lines : seq (seq N))
  : fileResult (ParsedTabularFile.t K) :=
  get st <- readRows lines None None None;
  let: (xValues, fValues, XValues) := st in
  match xValues, fValues with
  | Some xValues, Some fValues =>
    let XValues := if XValues is Some v then v else [::] in
    Parsed (ParsedTabularFile.mk (TabularFunction.mk xValues fValues) XValues)
  | _, _ => Rejected MissingRows
  end.

(** The [typeof] test holds by typing. *)
Definition parseTabularFile (content : seq N)
  : fileResult (ParsedTabularFile.t K) :=
  parseLines (splitLines content).

(** *** Notions used to state the properties of the parser *)

Definition sameLabel (a b : rowLabel) : bool :=
  match a, b with
  | Row_x, Row_x | Row_f, Row_f | Row_X, Row_X => true
  | _, _ => false
  end.

(** The line is not blank and is a row with label [label]. *)
Definition hasLabel (label : rowLabel) (rawLine : seq N) : bool :=
  (size (trim rawLine) != 0%N)
  && (if parseLabeledRow (trim rawLine) is Parsed row
      then sameLabel label row.1 else false).

(** The array that a parsed file holds for the rows labelled [label]. *)
Definition rowValues (r : ParsedTabularFile.t K) (label : rowLabel)
  : seq (number K) :=
  match label with
  | Row_x => TabularFunction.x (ParsedTabularFile.table r)
  | Row_f => TabularFunction.f (ParsedTabularFile.table r)
  | Row_X => ParsedTabularFile.X r
  end.

(** The three variables of the loop. *)
Definition filled (o : option (seq (number K))) : nat :=
  if o is Some _ then 1%N else 0%N.

Definition slot
    (st : option (seq (number K)) * option (seq (number K))
          * option (seq (number K)))
    (label : rowLabel) : option (seq (number K)) :=
  match label with
  | Row_x => st.1.1
  | Row_f => st.1.2
  | Row_X => st.2
  end.

End FileParsing.

(** The messages of [validateTabular] about the shape of the table. *)
Definition shapeMessage (m : message) : bool :=
  match m with
  | LengthMismatch | TooFewPoints | NotIncreasing => true
  | _ => false
  end.

(** The code units of a string of ASCII characters. *)
Fixpoint codeUnits (s : string) : seq N :=
  match s with
  | EmptyString => [::]
  | String c s' => N_of_ascii c :: codeUnits s'
  end.

(** A sample file, and [Number] on strings of decimal digits. *)
Definition digitsNumber (s : seq N) : number rat :=
  if (0 < size s)%N && all (fun c => (48 <=? c)%binN && (c <=? 57)%binN) s
  then Fin (foldl (fun v c => v * 10%:R + (nat_of_bin (c - 48)%binN)%:R) 0 s)
  else NaN.

Definition sampleLines : seq (seq N) :=
  [:: codeUnits "x: 1 2 3 4 5"; codeUnits "  ";
      codeUnits "f(x) 1 4 9 16 25"; codeUnits "X 2 3"].

Definition shuffledLines : seq (seq N) :=
  [:: codeUnits "  "; codeUnits "x: 1 2 3 4 5";
      codeUnits "f(x) 1 4 9 16 25"; codeUnits "X 2 3"].

(** ** Arithmetic on indices

    [lia] works on the Standard Library's relations; these tactics translate
    the boolean comparisons of [ssrnat] first. *)

Ltac nat_norm :=
  repeat match goal with
  | H : is_true (leq _ _) |- _ => move/ssrnat.leP in H
  | H : is_true (~~ leq _ _) |- _ => rewrite -ltnNge in H
  | H : leq _ _ = false |- _ => move/negbT in H
  | H : leq _ _ = true |- _ => move/ssrnat.leP in H
  | H : is_true (@eq_op _ _ _) |- _ => move/eqP in H
  | H : is_true (~~ (@eq_op _ _ _)) |- _ => move/eqP in H
  | H : @eq_op _ _ _ = false |- _ => move/eqP in H
  | H : @eq_op _ _ _ = true |- _ => move/eqP in H
  | H : context [addn] |- _ => rewrite -plusE in H
  | H : context [subn] |- _ => rewrite -minusE in H
  | H : context [muln] |- _ => rewrite -multE in H
  end;
  rewrite -?plusE -?minusE -?multE.

Ltac nat_lia :=
  nat_norm;
  first [ lia
        | apply/ssrnat.leP; nat_norm; lia
        | apply/eqP; nat_norm; lia
        | rewrite -ltnNge; apply/ssrnat.leP; nat_norm; lia
        | apply/negP; move/ssrnat.leP; nat_norm; lia
        | apply/negP; move/eqP; nat_norm; lia
        | apply/negbTE; rewrite -ltnNge; apply/ssrnat.leP; nat_norm; lia
        | apply/negbTE; apply/negP; move/eqP; nat_norm; lia ].

(** ** Properties of the kernels *)

Section KernelProperties.

Variable K : realFieldType.
Context {literals : Literals K}.

Implicit Types (x f : seq K) (t h : K) (p q : {poly K}).
Implicit Types (ri ra : option (DerivativeResult.t K)) (X : seq (number K)).

Lemma foldl_addE (I : Type) (g : I -> K) (s : seq I) (a : K) :
  foldl (fun v i => v + g i) a s = a + \sum_(i <- s) g i.
Proof.
elim: s a => [|i s IH] a /=; first by rewrite big_nil addr0.
by rewrite IH big_cons addrA.
Qed.

Lemma foldl_mulE (I : Type) (c : pred I) (g : I -> K) (s : seq I) (a : K) :
  foldl (fun v j => if c j then v else v * g j) a s
  = a * \prod_(j <- s | ~~ c j) g j.
Proof.
elim: s a => [|j s IH] a /=; first by rewrite big_nil mulr1.
by rewrite IH big_cons; case: (c j) => //=; rewrite mulrA.
Qed.

Lemma interpolateLagrangeAtPointE x f t :
  interpolateLagrangeAtPoint x f t
  = \sum_(i <- iota 0 (size x))
      nth 0 f i * \prod_(j <- iota 0 (size x) | j != i)
                    ((t - nth 0 x j) / (nth 0 x i - nth 0 x j)).
Proof.
rewrite /interpolateLagrangeAtPoint foldl_addE add0r.
apply: eq_bigr => i _.
by rewrite (foldl_mulE (fun j => j == i)) mul1r.
Qed.

Lemma horner_lagrangePoly x f t :
  (lagrangePoly x f).[t] = interpolateLagrangeAtPoint x f t.
Proof.
rewrite interpolateLagrangeAtPointE /lagrangePoly horner_sum.
apply: eq_bigr => i _; rewrite hornerZ /lagrangeBasis horner_prod.
congr (_ * _); apply: eq_bigr => j _.
by rewrite hornerZ hornerXsubC mulrC.
Qed.

Lemma size_prod_linear (I : Type) (s : seq I) (P : pred I) (c a : I -> K) :
  (size (\prod_(j <- s | P j) (c j *: ('X - (a j)%:P)))%R <= (count P s).+1)%N.
Proof.
elim: s => [|j s IH]; first by rewrite big_nil size_poly1.
rewrite big_cons /=; case: (P j); last by rewrite add0n.
apply: leq_trans (size_polyMleq _ _) _.
have h2 : (size (c j *: ('X - (a j)%:P))%R <= 2)%N.
  by apply: leq_trans (size_scale_leq _ _) _; rewrite size_XsubC.
rewrite add1n.
have := leq_add h2 IH; move: (size _) (size _) (count _ _) => A B C H.
by nat_lia.
Qed.

Lemma count_neq_iota (i n : nat) :
  (i < n)%N -> count (fun j => j != i) (iota 0 n) = n.-1.
Proof.
move=> lt_in.
have := count_predC (pred1 i) (iota 0 n).
rewrite size_iota (count_uniq_mem _ (iota_uniq 0 n)) mem_iota /= add0n lt_in.
rewrite (@eq_count _ (predC (pred1 i)) (fun j => j != i)) //= add1n.
by move: (count _ _) => c <-.
Qed.

Lemma size_lagrangeBasis x i :
  (i < size x)%N -> (size (lagrangeBasis x i) <= size x)%N.
Proof.
move=> lt_in; apply: leq_trans (size_prod_linear _ _ _ _) _.
by rewrite count_neq_iota // prednK //; apply: leq_ltn_trans lt_in.
Qed.

Lemma size_lagrangePoly x f : (size (lagrangePoly x f) <= size x)%N.
Proof.
rewrite /lagrangePoly.
have: forall i, i \in iota 0 (size x) -> (i < size x)%N.
  by move=> i; rewrite mem_iota add0n.
elim: (iota 0 (size x)) => [|i s IH] Hs; first by rewrite big_nil size_poly0.
rewrite big_cons; apply: leq_trans (size_polyD _ _) _.
rewrite geq_max; apply/andP; split.
  apply: leq_trans (size_scale_leq _ _) _; apply: size_lagrangeBasis.
  by apply: Hs; rewrite inE eqxx.
by apply: IH => k Hk; apply: Hs; rewrite inE Hk orbT.
Qed.

Lemma horner_lagrangeBasis x i k :
  uniq x -> (i < size x)%N -> (k < size x)%N ->
  (lagrangeBasis x i).[nth 0 x k] = (i == k)%:R.
Proof.
move=> Ux lt_i lt_k; rewrite /lagrangeBasis horner_prod.
case: (eqVneq i k) => [<-|ne_ik].
  apply: big1_seq => j /andP [ne_ji]; rewrite mem_iota add0n /= => lt_j.
  by rewrite hornerZ hornerXsubC mulVf // subr_eq0 nth_uniq // eq_sym.
apply/eqP; rewrite prodf_seq_eq0; apply/hasP; exists k.
  by rewrite mem_iota add0n.
by rewrite eq_sym ne_ik hornerZ hornerXsubC subrr mulr0 eqxx.
Qed.

Lemma lagrangePoly_node x f k :
  uniq x -> (k < size x)%N -> (lagrangePoly x f).[nth 0 x k] = nth 0 f k.
Proof.
move=> Ux lt_k; rewrite /lagrangePoly horner_sum.
rewrite (bigD1_seq k) ?mem_iota ?iota_uniq //=.
rewrite hornerZ horner_lagrangeBasis // eqxx mulr1 big1_seq ?addr0 //.
move=> i /andP [ne_ik]; rewrite mem_iota add0n /= => lt_i.
by rewrite hornerZ horner_lagrangeBasis // (negbTE ne_ik) mulr0.
Qed.

(** Two polynomials of degree below the number of nodes that agree at the
    nodes are equal. *)
Lemma poly_nodes_inj x p q :
  uniq x -> (size p <= size x)%N -> (size q <= size x)%N ->
  (forall k, (k < size x)%N -> p.[nth 0 x k] = q.[nth 0 x k]) -> p = q.
Proof.
move=> Ux sp sq Hpq; apply/eqP; rewrite -subr_eq0; apply/eqP.
apply: (@roots_geq_poly_eq0 _ _ x) => //.
  apply/(all_nthP 0) => k lt_k.
  by rewrite rootE hornerD hornerN Hpq // subrr.
apply: leq_trans (size_polyD _ _) _.
by rewrite size_polyN geq_max sp sq.
Qed.

(** The Lagrange form reproduces every polynomial of degree below the number
    of nodes from its samples. *)
Lemma lagrangePoly_sample x p :
  uniq x -> (size p <= size x)%N ->
  lagrangePoly x [seq p.[t] | t <- x] = p.
Proof.
move=> Ux sp; apply: (@poly_nodes_inj x) => //; first exact: size_lagrangePoly.
by move=> k lt_k; rewrite lagrangePoly_node // (nth_map 0).
Qed.

Lemma coefDuring_start x f j : coefDuring x f j (size x) = coefAfter x f j.
Proof.
apply: (@eq_from_nth _ 0); rewrite !size_mkseq // => i lt_i.
by rewrite !nth_mkseq // leqNgt lt_i.
Qed.

Lemma coefDuring_end x f j : coefDuring x f j j.+1 = coefAfter x f j.+1.
Proof.
apply: (@eq_from_nth _ 0); rewrite !size_mkseq // => i lt_i.
rewrite !nth_mkseq //; case: (ltnP j i) => [lt_ji|le_ij].
  by have -> : minn i j.+1 = j.+1 by apply/minn_idPr.
by have -> : minn i j.+1 = i by apply/minn_idPl; apply: leq_trans le_ij _.
Qed.

Lemma coefDuring_step x f j i0 :
  (j < i0)%N -> (i0 < size x)%N ->
  set_nth 0 (coefDuring x f j i0.+1) i0
    ((nth 0 (coefDuring x f j i0.+1) i0 - nth 0 (coefDuring x f j i0.+1) i0.-1)
       / (nth 0 x i0 - nth 0 x (i0 - j.+1)))
  = coefDuring x f j i0.
Proof.
move=> lt_j lt_i0.
have lt_p : (i0.-1 < size x)%N by apply: leq_ltn_trans (leq_pred _) lt_i0.
apply: (@eq_from_nth _ 0).
  rewrite size_set_nth !size_mkseq; apply/maxn_idPr; exact: lt_i0.
move=> i; rewrite size_set_nth size_mkseq => lt_i.
have {}lt_i : (i < size x)%N by move/maxn_idPr: lt_i0 lt_i => ->.
rewrite nth_set_nth /= !nth_mkseq //.
case: (eqVneq i i0) => [->|ne_i].
  rewrite ltnn leqnn ltnNge leq_pred /=.
  have -> : minn i0 j = j by apply/minn_idPr; exact: ltnW.
  have -> : minn i0.-1 j = j.
    by apply/minn_idPr; rewrite -ltnS prednK // (leq_ltn_trans _ lt_j).
  rewrite subnK // subnSK //.
  by congr ((_ - dividedDifference x f _ _) / _); rewrite -subn1 -subnDA add1n.
case: (leqP i0 i) => [le_i|lt_ii]; first by rewrite ltn_neqAle eq_sym ne_i le_i.
by rewrite leqNgt ltnS (ltnW lt_ii).
Qed.

Lemma coefAfter0 x f : size f = size x -> coefAfter x f 0 = f.
Proof.
move=> sf; apply: (@eq_from_nth _ 0); rewrite size_mkseq // => i lt_i.
by rewrite nth_mkseq // minn0 subn0.
Qed.

Lemma coefAfter_last x f :
  coefAfter x f (size x).-1 = mkseq (dividedDifference x f 0) (size x).
Proof.
apply: (@eq_from_nth _ 0); rewrite !size_mkseq // => i lt_i.
rewrite !nth_mkseq //.
have -> : minn i (size x).-1 = i by apply/minn_idPl; rewrite -ltnS prednK // (leq_ltn_trans _ lt_i).
by rewrite subnn.
Qed.

Lemma newton_inner x f j k i0 :
  (j < i0)%N -> (i0 + k)%N = size x ->
  foldr (fun i coef =>
           set_nth 0 coef i
             ((nth 0 coef i - nth 0 coef i.-1)
                / (nth 0 x i - nth 0 x (i - j.+1))))
        (coefAfter x f j) (iota i0 k)
  = coefDuring x f j i0.
Proof.
elim: k i0 => [|k IH] i0 lt_j /=.
  by rewrite addn0 => ->; rewrite coefDuring_start.
rewrite addnS -addSn => Hn.
rewrite IH //; first exact: leqW.
by apply: coefDuring_step => //; rewrite -Hn addSn ltnS leq_addr.
Qed.

Lemma newton_pass x f j :
  (j.+1 <= size x)%N ->
  foldl (fun coef i =>
           set_nth 0 coef i
             ((nth 0 coef i - nth 0 coef i.-1)
                / (nth 0 x i - nth 0 x (i - j.+1))))
        (coefAfter x f j) (rev (iota j.+1 (size x - j.+1)))
  = coefAfter x f j.+1.
Proof.
move=> le_j; rewrite foldl_rev newton_inner ?coefDuring_end ?subnKC //.
Qed.

Lemma buildNewtonCoefficientsE x f :
  size f = size x ->
  buildNewtonCoefficients x f = mkseq (dividedDifference x f 0) (size x).
Proof.
move=> sf; rewrite /buildNewtonCoefficients -coefAfter_last.
rewrite -{1}(coefAfter0 sf).
suff H k j : (j + k)%N = (size x).-1 ->
    foldl (fun coef j0 =>
             foldl (fun coef0 i =>
                      set_nth 0 coef0 i
                        ((nth 0 coef0 i - nth 0 coef0 i.-1)
                           / (nth 0 x i - nth 0 x (i - j0))))
                   coef (rev (iota j0 (size x - j0))))
          (coefAfter x f j) (iota j.+1 k)
    = coefAfter x f (size x).-1.
  by apply: H; rewrite add0n subn1.
elim: k j => [|k IH] j /=; first by rewrite addn0 => ->.
rewrite addnS -addSn => Hj.
rewrite newton_pass ?IH //.
have: (j.+1 <= (size x).-1)%N by rewrite -Hj leq_addr.
by move=> H; apply: leq_trans H (leq_pred _).
Qed.

Lemma horner_nested x (c : nat -> K) t k lo :
  foldr (fun i r => r * (t - nth 0 x i) + c i) (c (lo + k)%N) (iota lo k)
  = \sum_(0 <= m < k.+1) c (lo + m)%N * \prod_(0 <= j < m) (t - nth 0 x (lo + j)).
Proof.
elim: k lo => [|k IH] lo /=.
  by rewrite big_nat1 (@big_geq _ _ _ 0 0) // mulr1.
rewrite -addSnnS IH [RHS]big_nat_recl // (@big_geq _ _ _ 0 0) // mulr1 addn0 addrC.
congr (_ + _); rewrite mulr_suml; apply: eq_bigr => m _.
rewrite big_nat_recl // addn0 -mulrA [_ * (t - _)]mulrC addSnnS.
by congr (_ * (_ * _)); apply: eq_bigr => j _; rewrite addSnnS.
Qed.

Lemma evaluateNewtonAtPointE x f t :
  (0 < size x)%N ->
  evaluateNewtonAtPoint x (mkseq (dividedDifference x f 0) (size x)) t
  = (newtonPoly x f 0 (size x).-1).[t].
Proof.
move=> n0; rewrite /evaluateNewtonAtPoint foldl_rev subn1.
set c := fun i => nth 0 (mkseq (dividedDifference x f 0) (size x)) i.
rewrite -/(c (size x).-1) -[X in c X]add0n (horner_nested x c) prednK //.
rewrite /newtonPoly horner_sum prednK //.
rewrite !big_nat; apply: eq_bigr => m /andP [_ lt_m].
rewrite hornerZ /c nth_mkseq // add0n /newtonBasis horner_prod.
by congr (_ * _); apply: eq_bigr => j _; rewrite hornerXsubC.
Qed.

Lemma size_newtonBasis x lo m : size (newtonBasis x lo m) = m.+1.
Proof. by rewrite /newtonBasis size_prod_XsubC size_iota subn0. Qed.

Lemma monic_newtonBasis x lo m : newtonBasis x lo m \is monic.
Proof. exact: monic_prod_XsubC. Qed.

Lemma newtonBasisS x lo m :
  newtonBasis x lo m.+1 = newtonBasis x lo m * ('X - (nth 0 x (lo + m))%:P).
Proof. by rewrite /newtonBasis big_nat_recr. Qed.

Lemma horner_newtonBasis0 x lo m i :
  (i < m)%N -> (newtonBasis x lo m).[nth 0 x (lo + i)] = 0.
Proof.
move=> lt_i; rewrite /newtonBasis horner_prod.
apply/eqP; rewrite prodf_seq_eq0; apply/hasP; exists i.
  by rewrite mem_index_iota.
by rewrite hornerXsubC subrr eqxx.
Qed.

Lemma newtonPolyS x f lo k :
  newtonPoly x f lo k.+1
  = newtonPoly x f lo k
    + dividedDifference x f lo k.+1 *: newtonBasis x lo k.+1.
Proof. by rewrite /newtonPoly big_nat_recr. Qed.

Lemma newtonPoly0 x f lo : newtonPoly x f lo 0 = (nth 0 f lo)%:P.
Proof.
by rewrite /newtonPoly big_nat1 /newtonBasis (@big_geq _ _ _ 0 0) // alg_polyC.
Qed.

Lemma size_newtonPoly x f lo k : (size (newtonPoly x f lo k) <= k.+1)%N.
Proof.
elim: k => [|k IH]; first by rewrite newtonPoly0 size_polyC; case: (_ != _).
rewrite newtonPolyS; apply: leq_trans (size_polyD _ _) _.
rewrite geq_max (leq_trans IH) //=.
by apply: leq_trans (size_scale_leq _ _) _; rewrite size_newtonBasis.
Qed.

Lemma coef_newtonPoly x f lo k :
  (newtonPoly x f lo k)`_k = dividedDifference x f lo k.
Proof.
case: k => [|k]; first by rewrite newtonPoly0 coefC.
rewrite newtonPolyS coefD coefZ.
have /leq_sizeP -> // := size_newtonPoly x f lo k.
have /monicP := monic_newtonBasis x lo k.+1.
by rewrite lead_coefE size_newtonBasis /= => ->; rewrite add0r mulr1.
Qed.

Lemma coef_nevillePoly x f lo k j :
  (nevillePoly x f lo k)`_j.+1
  = (nth 0 x (lo + k.+1) - nth 0 x lo)^-1
    * (((newtonPoly x f lo.+1 k)`_j
         - nth 0 x lo * (newtonPoly x f lo.+1 k)`_j.+1)
       - ((newtonPoly x f lo k)`_j
           - nth 0 x (lo + k.+1) * (newtonPoly x f lo k)`_j.+1)).
Proof.
by rewrite /nevillePoly coefZ coefB !mulrBl !coefB !coefXM /= !coefCM.
Qed.

Lemma coef_neville_newton x f lo k j :
  (k < j)%N -> (nevillePoly x f lo k - newtonPoly x f lo k.+1)`_j = 0.
Proof.
case: j => [//|j]; rewrite ltnS => le_kj.
rewrite coefB coef_nevillePoly.
have z1 : (newtonPoly x f lo.+1 k)`_j.+1 = 0.
  by apply/(leq_sizeP _ _ (size_newtonPoly x f lo.+1 k)); rewrite ltnS.
have z0 : (newtonPoly x f lo k)`_j.+1 = 0.
  by apply/(leq_sizeP _ _ (size_newtonPoly x f lo k)); rewrite ltnS.
rewrite z1 z0 !mulr0 !subr0.
move: le_kj; rewrite leq_eqVlt => /orP [/eqP <-|lt_kj].
  by rewrite !coef_newtonPoly /= mulrC subrr.
rewrite (leq_sizeP _ _ (size_newtonPoly x f lo.+1 k)) //.
rewrite (leq_sizeP _ _ (size_newtonPoly x f lo k)) //.
rewrite (leq_sizeP _ _ (size_newtonPoly x f lo k.+1)) //.
by rewrite subrr mulr0 subr0.
Qed.

Lemma horner_nevillePoly x f lo k t :
  (nevillePoly x f lo k).[t]
  = (nth 0 x (lo + k.+1) - nth 0 x lo)^-1
    * ((t - nth 0 x lo) * (newtonPoly x f lo.+1 k).[t]
       - (t - nth 0 x (lo + k.+1)) * (newtonPoly x f lo k).[t]).
Proof. by rewrite /nevillePoly hornerZ hornerD hornerN !hornerM !hornerXsubC. Qed.

Lemma newtonPoly_node x f :
  uniq x ->
  forall k lo i, (lo + k < size x)%N -> (i <= k)%N ->
    (newtonPoly x f lo k).[nth 0 x (lo + i)] = nth 0 f (lo + i).
Proof.
move=> Ux; elim=> [|k IH] lo i Hlo Hi.
  by move: Hi; rewrite leqn0 => /eqP ->; rewrite newtonPoly0 hornerC addn0.
have lt_lo : (lo < size x)%N by apply: leq_ltn_trans (leq_addr _ _) Hlo.
have Hlo0 : (lo + k < size x)%N.
  by apply: leq_ltn_trans Hlo; rewrite addnS.
have Hlo1 : (lo.+1 + k < size x)%N by rewrite addSnnS.
have ne_ab : nth 0 x (lo + k.+1) - nth 0 x lo != 0.
  by rewrite subr_eq0 nth_uniq // -[X in _ == X]addn0 eqn_add2l.
have Hq j : (j <= k.+1)%N ->
    (nevillePoly x f lo k).[nth 0 x (lo + j)] = nth 0 f (lo + j).
  rewrite horner_nevillePoly; case: j => [_|j]; last rewrite ltnS => le_j.
    rewrite (IH lo 0%N) // addn0 subrr mul0r sub0r.
    by field.
  have -> : (lo + j.+1 = lo.+1 + j)%N by rewrite addSnnS.
  rewrite (IH lo.+1 j) // addSnnS.
  move: le_j; rewrite leq_eqVlt => /orP [/eqP ->|lt_j].
    by rewrite subrr mul0r subr0; field.
  by rewrite IH //; field.
have Hr : nevillePoly x f lo k - newtonPoly x f lo k.+1 = 0.
  apply: (@roots_geq_poly_eq0 _ _ [seq nth 0 x (lo + j) | j <- iota 0 k.+1]).
  - apply/allP => t /mapP [j Hj ->]; move: Hj.
    rewrite mem_iota add0n /= ltnS => le_j.
    rewrite rootE hornerD hornerN (Hq _ (leqW le_j)).
    rewrite newtonPolyS hornerD hornerZ horner_newtonBasis0 ?ltnS //.
    by rewrite IH // mulr0 addr0 subrr.
  - rewrite map_inj_in_uniq ?iota_uniq // => i1 i2.
    rewrite !mem_iota !add0n /= => le1 le2 /eqP.
    have lt1 : (lo + i1 < size x)%N.
      by apply: leq_ltn_trans Hlo; rewrite leq_add2l ltnW.
    have lt2 : (lo + i2 < size x)%N.
      by apply: leq_ltn_trans Hlo; rewrite leq_add2l ltnW.
    by rewrite nth_uniq // eqn_add2l => /eqP.
  - by rewrite size_map size_iota; apply/leq_sizeP => j; exact: coef_neville_newton.
have <- : nevillePoly x f lo k = newtonPoly x f lo k.+1.
  by apply/eqP; rewrite -subr_eq0 Hr.
exact: Hq.
Qed.

Lemma newtonPoly_lagrangePoly x f :
  uniq x -> (0 < size x)%N ->
  newtonPoly x f 0 (size x).-1 = lagrangePoly x f.
Proof.
move=> Ux n0; apply: (@poly_nodes_inj x) => //.
- by apply: leq_trans (size_newtonPoly _ _ _ _) _; rewrite prednK.
- exact: size_lagrangePoly.
move=> k lt_k; rewrite lagrangePoly_node //.
rewrite -[k in LHS]add0n -[k in RHS]add0n newtonPoly_node //.
  by rewrite add0n prednK.
by rewrite -ltnS prednK.
Qed.

Lemma newton_lagrange_atPoint x f t :
  uniq x -> size f = size x -> (0 < size x)%N ->
  evaluateNewtonAtPoint x (buildNewtonCoefficients x f) t
  = interpolateLagrangeAtPoint x f t.
Proof.
move=> Ux sf n0.
rewrite buildNewtonCoefficientsE // evaluateNewtonAtPointE //.
by rewrite newtonPoly_lagrangePoly // horner_lagrangePoly.
Qed.

Lemma foldl_addE_cond (I : Type) (c : pred I) (g : I -> K) (s : seq I) (a : K) :
  foldl (fun v m => if c m then v else v + g m) a s
  = a + \sum_(m <- s | ~~ c m) g m.
Proof.
elim: s a => [|m s IH] a /=; first by rewrite big_nil addr0.
by rewrite IH big_cons; case: (c m) => //=; rewrite addrA.
Qed.

Lemma computeLagrangeDerivativeAtPointE x f t :
  computeLagrangeDerivativeAtPoint x f t
  = \sum_(i <- iota 0 (size x))
      nth 0 f i *
      \sum_(m <- iota 0 (size x) | m != i)
         (nth 0 x i - nth 0 x m)^-1 *
         \prod_(j <- iota 0 (size x) | (j != m) && (j != i))
            ((t - nth 0 x j) / (nth 0 x i - nth 0 x j)).
Proof.
rewrite /computeLagrangeDerivativeAtPoint foldl_addE add0r.
apply: eq_bigr => i _; congr (_ * _).
rewrite (foldl_addE_cond (fun m => m == i)) add0r.
apply: eq_bigr => m _.
rewrite (foldl_mulE (fun j => (j == i) || (j == m))) mul1r; congr (_ * _).
by apply: eq_bigl => j; rewrite negb_or andbC.
Qed.

Lemma deriv_prod (s : seq nat) (P : pred nat) (F : nat -> {poly K}) :
  uniq s ->
  (\prod_(j <- s | P j) F j)^`()
  = \sum_(m <- s | P m) (F m)^`() * \prod_(j <- s | (j != m) && P j) F j.
Proof.
elim: s => [|a s IH] /=; first by rewrite !big_nil derivC.
case/andP => a_notin Us.
have Ha (G : nat -> {poly K}) (Q : pred nat) :
    \prod_(j <- s | (j != a) && Q j) G j = \prod_(j <- s | Q j) G j.
  rewrite big_seq_cond [RHS]big_seq_cond; apply: eq_bigl => j.
  by case: (eqVneq j a) => [->|//]; rewrite (negbTE a_notin).
rewrite !big_cons; case Pa: (P a).
  rewrite derivM IH // eqxx /= Ha; congr (_ + _).
  rewrite mulr_sumr big_seq_cond [RHS]big_seq_cond; apply: eq_bigr => m.
  case/andP => m_in Pm; rewrite big_cons.
  have -> /= : a != m by apply: contraNneq a_notin => ->.
  by rewrite Pa mulrCA.
rewrite IH // big_seq_cond [RHS]big_seq_cond; apply: eq_bigr => m.
by case/andP => m_in Pm; rewrite big_cons Pa andbF.
Qed.

Lemma horner_deriv_lagrangePoly x f t :
  (lagrangePoly x f)^`().[t] = computeLagrangeDerivativeAtPoint x f t.
Proof.
rewrite computeLagrangeDerivativeAtPointE /lagrangePoly linear_sum horner_sum.
apply: eq_bigr => i _; rewrite /= derivZ hornerZ; congr (_ * _).
rewrite /lagrangeBasis deriv_prod ?iota_uniq // horner_sum.
apply: eq_bigr => m _; rewrite hornerM derivZ derivXsubC hornerZ hornerC mulr1.
congr (_ * _); rewrite horner_prod; apply: eq_bigr => j _.
by rewrite hornerZ hornerXsubC mulrC.
Qed.

(** On distinct nodes, both evaluators return the value of any polynomial of
    degree below the number of nodes that the table samples. *)
Lemma lagrange_exact x p t :
  uniq x -> (size p <= size x)%N ->
  interpolateLagrangeAtPoint x [seq p.[u] | u <- x] t = p.[t].
Proof. by move=> Ux sp; rewrite -horner_lagrangePoly lagrangePoly_sample. Qed.

Lemma newton_exact x p t :
  uniq x -> (size p <= size x)%N -> (0 < size x)%N ->
  evaluateNewtonAtPoint x
    (buildNewtonCoefficients x [seq p.[u] | u <- x]) t = p.[t].
Proof.
move=> Ux sp n0.
by rewrite newton_lagrange_atPoint ?size_map // lagrange_exact.
Qed.

Lemma derivative_exact x p t :
  uniq x -> (size p <= size x)%N ->
  computeLagrangeDerivativeAtPoint x [seq p.[u] | u <- x] t = p^`().[t].
Proof. by move=> Ux sp; rewrite -horner_deriv_lagrangePoly lagrangePoly_sample. Qed.

Lemma value_ofK : cancel (@Fin K) (@value_of K).
Proof. by []. Qed.

Lemma map_value_of x : map (@value_of K) (map Fin x) = x.
Proof. by rewrite mapK. Qed.

Lemma all_finiteP (s : seq (number K)) :
  all (@isFinite K) s -> s = map Fin (map (@value_of K) s).
Proof. by elim: s => [|[r|||] s IH] //= /IH <-. Qed.

Lemma all_finite_map x : all (@isFinite K) (map Fin x).
Proof. by elim: x. Qed.

Lemma isStrictlyIncreasing_sorted x :
  isStrictlyIncreasing (map Fin x) = sorted <%R x.
Proof.
rewrite /isStrictlyIncreasing size_map.
apply/allP/(sortedP 0) => [H i lt_i|H i].
  have /H : i.+1 \in iota 1 (size x - 1).
    by rewrite mem_iota /= add1n subn1 prednK // (leq_ltn_trans _ lt_i).
  by rewrite /= !(nth_map 0) ?(ltnW lt_i) //= -ltNge.
rewrite mem_iota add1n; case: i => [//|i] /andP [_ Hi].
have lt_i : (i.+1 < size x)%N by nat_lia.
by rewrite /= !(nth_map 0) ?(ltnW lt_i) //= -ltNge H.
Qed.

Lemma sorted_lt_uniq x : sorted <%R x -> uniq x.
Proof. by apply: sorted_uniq; [exact: lt_trans | exact: ltxx]. Qed.

Lemma sorted_lt_nth x i j :
  sorted <%R x -> (i < j)%N -> (j < size x)%N -> nth 0 x i < nth 0 x j.
Proof.
move=> Sx lt_ij lt_j.
by apply: (sorted_ltn_nth lt_trans) => //; rewrite inE (ltn_trans lt_ij).
Qed.

Lemma validateTabular_finiteTable x f (m : nat) :
  size f = size x -> (m <= size x)%N -> sorted <%R x ->
  validateTabular (finiteTable x f) m = Ok tt.
Proof.
move=> sf le_m Sx; rewrite /validateTabular /= !size_map sf eqxx /=.
rewrite ltnNge le_m /= isStrictlyIncreasing_sorted Sx /=.
case: hasP => // -[i]; rewrite mem_iota add0n /= => lt_i.
by rewrite !(nth_map 0) ?sf.
Qed.

Lemma validateTabular_Ok (table : TabularFunction.t K) (m : nat) :
  validateTabular table m = Ok tt ->
  exists x f, [/\ table = finiteTable x f, size f = size x,
                  (m <= size x)%N & sorted <%R x].
Proof.
case: table => tx tf; rewrite /validateTabular /=.
case: eqP => // sz; case: ltnP => // le_m.
case Hinc: (isStrictlyIncreasing tx) => //=.
case: hasP => // Hfin _.
have Hx : all (@isFinite K) tx.
  apply/(all_nthP NaN) => i lt_i; apply/negPn/negP => Hi.
  by apply: Hfin; exists i; rewrite ?mem_iota ?add0n //= Hi.
have Hf : all (@isFinite K) tf.
  apply/(all_nthP NaN) => i; rewrite -sz => lt_i; apply/negPn/negP => Hi.
  by apply: Hfin; exists i; rewrite ?mem_iota ?add0n //= Hi orbT.
exists (map (@value_of K) tx), (map (@value_of K) tf).
rewrite /finiteTable -!all_finiteP // !size_map; split => //.
by rewrite -isStrictlyIncreasing_sorted -all_finiteP.
Qed.

Lemma nearestStep_fold x Xk (l : seq nat) (st : nat * K) :
  st.2 = `|nth 0 x st.1 - Xk| ->
  let st' := foldl (nearestStep x Xk) st l in
  [/\ st'.2 = `|nth 0 x st'.1 - Xk|,
      (st'.1 == st.1) || (st'.1 \in l),
      st'.2 <= st.2
    & forall j, j \in l -> st'.2 <= `|nth 0 x j - Xk|].
Proof.
elim: l st => [|i l IH] [idx md] /= Hst; first by rewrite eqxx lexx.
set st1 := (if _ then _ else _).
have [H1 H2 H3] : [/\ st1.2 = `|nth 0 x st1.1 - Xk|,
    (st1.1 == idx) || (st1.1 == i), st1.2 <= md
    & st1.2 <= `|nth 0 x i - Xk|].
  rewrite /st1; case: ltP => /= [lt|le]; split=> //; rewrite ?eqxx ?orbT //.
  exact: ltW.
move=> H4; case: (IH st1 H1) => I1 I2 I3 I4; split=> //.
- case/orP: I2 => [/eqP ->|I2]; last by rewrite inE I2 !orbT.
  by rewrite inE orbA H2.
- exact: le_trans I3 H3.
- move=> j; rewrite inE => /orP [/eqP ->|]; last exact: I4.
  exact: le_trans I3 H4.
Qed.

Lemma findNearestIndex_Ok x Xk :
  (0 < size x)%N ->
  exists i, [/\ findNearestIndex x Xk = Ok i, (i < size x)%N
             & forall j, (j < size x)%N ->
                 `|nth 0 x i - Xk| <= `|nth 0 x j - Xk|].
Proof.
move=> n0; rewrite /findNearestIndex eqn0Ngt n0 /=.
set st0 := (0%N, _); set st' := foldl _ _ _.
have [] := @nearestStep_fold x Xk (iota 1 (size x - 1)) st0 (erefl _).
rewrite -/st' /= => H1 H2 H3 H4.
exists st'.1; split=> //.
  case/orP: H2 => [/eqP -> //|]; rewrite mem_iota add1n subn1 prednK //.
  by case/andP.
move=> [_|j lt_j]; first by rewrite -H1.
by rewrite -H1; apply: H4; rewrite mem_iota add1n subn1 prednK.
Qed.

Lemma findNearestIndex_empty x Xk :
  size x = 0%N -> findNearestIndex x Xk = Err (TabularDataError EmptyArray).
Proof. by rewrite /findNearestIndex => ->. Qed.


Lemma get5PointStencilIndices_window x Xk :
  (5 <= size x)%N ->
  exists (nearest : nat) (start : Z),
    [/\ findNearestIndex x Xk = Ok nearest,
        (nearest < size x)%N,
        start = Z.min (Z.max (Z.of_nat nearest - 2) 0) (Z.of_nat (size x) - 5),
        get5PointStencilIndices x Xk
        = Ok [:: start; start + 1; start + 2; start + 3; start + 4]%coqZ
      & (0 <= start <= Z.of_nat (size x) - 5)%coqZ
        /\ (start <= Z.of_nat nearest <= start + 4)%coqZ].
Proof.
move=> n5; have n0 : (0 < size x)%N by apply: leq_trans n5.
have [nearest [Hn lt_n _]] := findNearestIndex_Ok Xk n0.
exists nearest; eexists; split; [exact: Hn | exact: lt_n | reflexivity | |].
- rewrite /get5PointStencilIndices ltnNge n5 /= Hn /=.
  move/ssrnat.ltP: lt_n => lt_n; move/ssrnat.leP: n5 => n5.
  congr Ok.
  case: Z.ltb_spec => H1; case: Z.geb_spec => H2;
    rewrite ?Z.add_0_r; repeat (f_equal; try lia).
- by move/ssrnat.ltP: lt_n => lt_n; move/ssrnat.leP: n5 => n5; lia.
Qed.

Lemma get5PointStencilIndices_nat x Xk :
  (5 <= size x)%N ->
  exists s : nat,
    (s + 5 <= size x)%N
    /\ get5PointStencilIndices x Xk = Ok [seq Z.of_nat i | i <- iota s 5].
Proof.
move=> n5; have [nearest [start [_ _ _ -> [[H0 H1] _]]]] :=
  get5PointStencilIndices_window Xk n5.
exists (Z.to_nat start); split.
  by apply/ssrnat.leP; rewrite -plusE; lia.
by congr Ok; rewrite /=; repeat (f_equal; try lia).
Qed.

Lemma pick_nat x (s : seq nat) :
  pick x [seq Z.of_nat i | i <- s] = [seq nth 0 x i | i <- s].
Proof.
by rewrite /pick -map_comp; apply: eq_map => i /=; rewrite Nat2Z.id.
Qed.

Lemma uniq_window x (s m : nat) :
  uniq x -> (s + m <= size x)%N -> uniq [seq nth 0 x i | i <- iota s m].
Proof.
move=> Ux le_s; rewrite map_inj_in_uniq ?iota_uniq // => i j.
rewrite !mem_iota => /andP [_ lt_i] /andP [_ lt_j] /eqP.
by rewrite nth_uniq ?(leq_trans lt_i) ?(leq_trans lt_j) // => /eqP.
Qed.

Lemma window_map x (g : K -> K) (s m : nat) :
  (s + m <= size x)%N ->
  [seq nth 0 [seq g u | u <- x] i | i <- iota s m]
  = [seq g u | u <- [seq nth 0 x i | i <- iota s m]].
Proof.
move=> le_s; rewrite -map_comp; apply/eq_in_map => i.
rewrite mem_iota => /andP [_ lt_i] /=.
by rewrite (nth_map 0) // (leq_trans lt_i).
Qed.

Lemma forEach_cond (A B : Type) (body : A -> result B) (bad : pred A)
    (g : A -> B) (e : error) (s : seq A) :
  (forall a, body a = if bad a then Err e else Ok (g a)) ->
  forEach body s = if has bad s then Err e else Ok (map g s).
Proof.
move=> Hb; elim: s => [|a s IH] //=.
by rewrite Hb; case: (bad a) => //=; rewrite IH; case: (has bad s).
Qed.

Lemma forEach_Ok (A B : Type) (body : A -> result B) (g : A -> B) (s : seq A) :
  (forall a, body a = Ok (g a)) -> forEach body s = Ok (map g s).
Proof.
move=> Hb.
by rewrite (@forEach_cond _ _ body pred0 g MethodNotSupportedError) // has_pred0.
Qed.

Lemma size_forEach (A B : Type) (body : A -> result B) (s : seq A) bs :
  forEach body s = Ok bs -> size bs = size s.
Proof.
elim: s bs => [|a s IH] bs /=; first by case=> <-.
case: (body a) => //= b; case E: (forEach body s) => [bs'|] //= [<-] /=.
by rewrite (IH bs').
Qed.

Lemma validatePointsToEvaluate_finite x f (Xs : seq K) (requireInRange : bool) :
  (0 < size x)%N -> (0 < size Xs)%N ->
  validatePointsToEvaluate (finiteTable x f) (map Fin Xs) requireInRange
  = if requireInRange && ~~ all (inSpan x) Xs
    then Err (TabularDataError OutOfRange) else Ok tt.
Proof.
move=> n0 X0; rewrite /validatePointsToEvaluate size_map eqn0Ngt X0 /=.
have -> : has (fun v => ~~ isFinite v) (map (@Fin K) Xs) = false.
  by apply/negbTE; rewrite -all_predC; elim: (Xs).
case: requireInRange => //=; rewrite size_map subn1 !(nth_map 0) ?prednK //.
rewrite has_map -has_predC; congr (if _ then _ else _).
by apply: eq_has => t /=; rewrite /inSpan negb_and -!ltNge.
Qed.

Lemma interpolateNewton_Lagrange (table : TabularFunction.t K) X :
  interpolateNewton table X = interpolateLagrange table X.
Proof.
rewrite /interpolateNewton /interpolateLagrange.
case E: (validateTabular table 2) => [[]|e] //=.
case: (validatePointsToEvaluate table X false) => [[]|e] //=.
have [x [f [-> sf n2 Sx]]] := validateTabular_Ok E.
rewrite /= !map_value_of; congr (Ok (InterpolationResult.mk _ _)).
apply: eq_map => Xk.
by rewrite newton_lagrange_atPoint ?sorted_lt_uniq // (leq_trans _ n2).
Qed.

Lemma interpolateLagrange_finite x f (Xs : seq K) :
  size f = size x -> (2 <= size x)%N -> isStrictlyIncreasing (map Fin x) ->
  (0 < size Xs)%N ->
  interpolateLagrange (finiteTable x f) (map Fin Xs)
  = Ok (InterpolationResult.mk (map Fin Xs)
          [seq interpolateLagrangeAtPoint x f t | t <- Xs]).
Proof.
move=> sf n2; rewrite isStrictlyIncreasing_sorted => Sx X0.
rewrite /interpolateLagrange validateTabular_finiteTable //=.
rewrite validatePointsToEvaluate_finite ?(leq_trans _ n2) //=.
by rewrite !map_value_of -map_comp.
Qed.

Lemma differentiateByInterpolation5_exact x p (Xs : seq K) :
  isStrictlyIncreasing (map Fin x) -> (5 <= size x)%N -> (size p <= 5)%N ->
  (0 < size Xs)%N -> all (inSpan x) Xs ->
  differentiateByInterpolation5
    (finiteTable x [seq p.[u] | u <- x]) (map Fin Xs)
  = Ok (DerivativeResult.mk (map Fin Xs) [seq p^`().[t] | t <- Xs]).
Proof.
rewrite isStrictlyIncreasing_sorted => Sx n5 sp X0 Hin.
have n0 : (0 < size x)%N by apply: leq_trans n5.
rewrite /differentiateByInterpolation5 validateTabular_finiteTable ?size_map //=.
rewrite /validateMinPointsForMethod /= size_map ltnNge n5 /=.
rewrite validatePointsToEvaluate_finite // Hin /= !map_value_of.
rewrite (@forEach_Ok _ _ _ (fun Xk => p^`().[value_of Xk])) /=; last first.
  by rewrite -map_comp.
move=> Xk; have [s [le_s ->]] := get5PointStencilIndices_nat (value_of Xk) n5.
rewrite /bind !pick_nat window_map // derivative_exact ?size_map ?size_iota //.
by apply: uniq_window => //; exact: sorted_lt_uniq.
Qed.

Lemma formulaRanges_exclusive (n i : nat) :
  (5 <= n)%N -> (i < n)%N -> count id (formulaRanges n i) = 1%N.
Proof.
move=> n5 lt_i; rewrite /formulaRanges /=.
case E0: (i == 0%N); case E1: (i == 1%N); case E2: (2 <= i)%N;
  case E3: (i <= n - 3)%N; case E4: (i == n - 2)%N;
  case E5: (i == n - 1)%N => /=; by nat_lia.
Qed.

Lemma finiteDifference5AtIndex_spec f i h :
  (5 <= size f)%N -> (i < size f)%N ->
  exists v, finiteDifference5AtIndex f i h = Ok v
            /\ specFiniteDifference5 f i h = Some v.
Proof.
move=> n5 lt_i; rewrite /finiteDifference5AtIndex /specFiniteDifference5.
rewrite ltnNge n5 /=.
case: (eqVneq i 0%N) => [_|i0]; first by eexists.
case: (eqVneq i 1%N) => [_|i1]; first by eexists.
have i2 : (2 <= i)%N by nat_lia.
rewrite i2 /=.
case: (eqVneq i (size f - 2)%N) => [Ei|in2].
  have -> : (i <= size f - 3)%N = false by nat_lia.
  by eexists.
case: (eqVneq i (size f - 1)%N) => [Ei|in1].
  have -> : (i <= size f - 3)%N = false by nat_lia.
  by eexists.
have -> : (i <= size f - 3)%N by nat_lia.
by eexists.
Qed.

Lemma finiteDifference5AtIndex_small f i h :
  (size f < 5)%N ->
  finiteDifference5AtIndex f i h = Err (TabularDataError FormulaNeedsFive).
Proof. by rewrite /finiteDifference5AtIndex => ->. Qed.

Lemma getApproximateStepE x (tolerance : K) :
  getApproximateStep x tolerance
  = if (size x < 2)%N then None
    else if nonUniform x tolerance then None else Some (meanSpacing x).
Proof.
by rewrite /getApproximateStep /meanSpacing /nonUniform has_map.
Qed.

Lemma meanSpacing_sum x :
  meanSpacing x
  = (\sum_(i <- iota 1 (size x - 1)) (nth 0 x i - nth 0 x i.-1))
      / (size x - 1)%:R.
Proof.
by rewrite /meanSpacing foldl_addE add0r big_map size_map size_iota.
Qed.

Lemma sum_spacings x (a k : nat) :
  \sum_(i <- iota a.+1 k) (nth 0 x i - nth 0 x i.-1)
  = nth 0 x (a + k) - nth 0 x a.
Proof.
elim: k a => [|k IH] a; first by rewrite big_nil addn0 subrr.
by rewrite /= big_cons IH /= addSnnS addrC subrKA.
Qed.

Lemma meanSpacingE x :
  meanSpacing x = (nth 0 x (size x).-1 - nth 0 x 0) / (size x - 1)%:R.
Proof. by rewrite meanSpacing_sum sum_spacings add0n subn1. Qed.

Lemma meanSpacing_gt0 x :
  sorted <%R x -> (2 <= size x)%N -> 0 < meanSpacing x.
Proof.
move=> Sx n2; rewrite meanSpacingE divr_gt0 //.
  by rewrite subr_gt0 sorted_lt_nth // -ltnS prednK // (leq_trans _ n2).
by rewrite ltr0n subn_gt0.
Qed.

Lemma nearest_far x h t idx :
  findNearestIndex x t = Ok idx ->
  (`|t - nth 0 x idx| > `|h| * nodeFactor) = farFromNodes x h t.
Proof.
case: (posnP (size x)) => [/findNearestIndex_empty -> //|n0].
have [i [-> lt_i Hmin]] := findNearestIndex_Ok t n0; case=> <-.
apply/idP/(all_nthP 0) => [Hfar j lt_j|/(_ i lt_i)]; last by [].
by apply: lt_le_trans Hfar _; rewrite distrC [leRHS]distrC Hmin.
Qed.


Lemma approximation_body x f h t :
  (5 <= size x)%N -> size f = size x ->
  (do idx <- findNearestIndex x t;
   let distance := `|t - nth 0 x idx| in
   if distance > `|h| * nodeFactor
   then Err (TabularDataError NotNearNode)
   else finiteDifference5AtIndex f idx h)
  = if farFromNodes x h t then Err (TabularDataError NotNearNode)
    else Ok (approximationAt x f h t).
Proof.
move=> n5 sf; have n0 : (0 < size x)%N by apply: leq_trans n5.
have [idx [Hidx lt_idx _]] := findNearestIndex_Ok t n0.
rewrite /approximationAt Hidx /= (nearest_far h Hidx).
case: ifP => // _.
have lt_f : (idx < size f)%N by rewrite sf.
have n5f : (5 <= size f)%N by rewrite sf.
by have [v [-> _]] := finiteDifference5AtIndex_spec h n5f lt_f.
Qed.

Lemma differentiateByApproximation5_finite x f (Xs : seq K) :
  size f = size x -> (5 <= size x)%N -> isStrictlyIncreasing (map Fin x) ->
  (0 < size Xs)%N -> all (inSpan x) Xs ->
  differentiateByApproximation5 (finiteTable x f) (map Fin Xs)
  = if nonUniform x gridTolerance
    then Err (TabularDataError NotUniform)
    else if has (farFromNodes x (meanSpacing x)) Xs
    then Err (TabularDataError NotNearNode)
    else Ok (DerivativeResult.mk (map Fin Xs)
               [seq approximationAt x f (meanSpacing x) t | t <- Xs]).
Proof.
move=> sf n5; rewrite isStrictlyIncreasing_sorted => Sx X0 Hin.
have n0 : (0 < size x)%N by apply: leq_trans n5.
have n2 : (2 <= size x)%N by apply: leq_trans n5.
rewrite /differentiateByApproximation5 validateTabular_finiteTable //=.
rewrite /validateMinPointsForMethod /= size_map ltnNge n5 /= !map_value_of.
rewrite getApproximateStepE ltnNge n2 /=; case: ifP => // _.
rewrite normr_eq0 gt_eqF ?meanSpacing_gt0 //.
rewrite validatePointsToEvaluate_finite // Hin /=.
have Hbody (Xk : number K) := approximation_body (meanSpacing x) (value_of Xk) n5 sf.
rewrite (forEach_cond _ Hbody) has_map.
by case: ifP => //= _; rewrite -map_comp.
Qed.

Lemma compareStep_rows ri ra X (l : seq nat) st :
  (foldl (compareStep ri ra X) st l).1.1.1
  = st.1.1.1 ++ [seq derivativeRow ri ra X i | i <- l].
Proof.
elim: l st => [|i l IH] [[[rows s] m] c] /=; first by rewrite cats0.
rewrite IH /derivativeRow -cat_rcons.
by case: (valueAt ri i) => [vi|]; case: (valueAt ra i) => [va|].
Qed.

Lemma compareStep_count ri ra X (l : seq nat) st :
  (foldl (compareStep ri ra X) st l).2 = (st.2 + count (bothAt ri ra) l)%N.
Proof.
elim: l st => [|i l IH] [[[rows s] m] c] /=; first by rewrite addn0.
rewrite IH /bothAt.
by case: (valueAt ri i) => [vi|]; case: (valueAt ra i) => [va|] //=;
  rewrite ?add0n // add1n addSnnS.
Qed.

Lemma compareDerivatives_rows ri ra X :
  DifferentiationMethodsSummary.rows (compareDerivatives ri ra X)
  = [seq derivativeRow ri ra X i | i <- iota 0 (size X)].
Proof.
rewrite /compareDerivatives -/(compareStep ri ra X).
have := compareStep_rows ri ra X (iota 0 (size X)) ([::], 0, 0, 0%N).
by case: (foldl _ _ _) => [[[rows s] m] c] /= ->.
Qed.

Lemma compareDerivatives_none ri ra X :
  ~~ has (bothAt ri ra) (iota 0 (size X)) ->
  compareDerivatives ri ra X
  = DifferentiationMethodsSummary.mk
      [seq derivativeRow ri ra X i | i <- iota 0 (size X)] None None.
Proof.
move=> Hnone; rewrite /compareDerivatives -/(compareStep ri ra X).
have := compareStep_rows ri ra X (iota 0 (size X)) ([::], 0, 0, 0%N).
have := compareStep_count ri ra X (iota 0 (size X)) ([::], 0, 0, 0%N).
case: (foldl _ _ _) => [[[rows s] m] c] /= -> ->.
by rewrite add0n -has_count (negbTE Hnone).
Qed.

Lemma onth_size (T : Type) (x0 : T) (s : seq T) (i : nat) :
  (i < size s)%N -> onth s i = Some (nth x0 s i).
Proof. by elim: s i => [|a s IH] [|i] //= /IH. Qed.

Lemma map_nth_iota (T S : Type) (x0 : T) (g : T -> S) (s : seq T) :
  [seq g (nth x0 s i) | i <- iota 0 (size s)] = map g s.
Proof. by rewrite -[in RHS](mkseq_nth x0 s) /mkseq -map_comp. Qed.

Lemma differentiateByInterpolation5_Ok (table : TabularFunction.t K) X r :
  differentiateByInterpolation5 table X = Ok r ->
  DerivativeResult.X r = X /\ size (DerivativeResult.Fd r) = size X.
Proof.
rewrite /differentiateByInterpolation5.
case: validateTabular => [[]|] //=; case: validateMinPointsForMethod => [[]|] //=.
case: validatePointsToEvaluate => [[]|] //=.
case E: forEach => [Fd|] //= [<-] /=.
by rewrite (size_forEach E).
Qed.

Lemma differentiateByApproximation5_Ok (table : TabularFunction.t K) X r :
  differentiateByApproximation5 table X = Ok r ->
  DerivativeResult.X r = X /\ size (DerivativeResult.Fd r) = size X.
Proof.
rewrite /differentiateByApproximation5.
case: validateTabular => [[]|] //=; case: validateMinPointsForMethod => [[]|] //=.
case: getApproximateStep => [h|] //; case: ifP => // _.
case: validatePointsToEvaluate => [[]|] //=.
case E: forEach => [Fd|] //= [<-] /=.
by rewrite (size_forEach E).
Qed.

(** In exact arithmetic the finite-difference method accepts an input only
    if the interpolation method does: its checks include the other's. *)
Lemma approximation5_Ok_interpolation5_Ok (table : TabularFunction.t K) X r :
  differentiateByApproximation5 table X = Ok r ->
  isOk (differentiateByInterpolation5 table X).
Proof.
rewrite /differentiateByApproximation5 /differentiateByInterpolation5.
case E: validateTabular => [[]|] //=.
have [x [f [-> sf n5 Sx]]] := validateTabular_Ok E.
case: validateMinPointsForMethod => [[]|] //=.
case: getApproximateStep => [h|] //; case: ifP => // _.
case: validatePointsToEvaluate => [[]|] //= _.
rewrite !map_value_of.
rewrite (@forEach_Ok _ _ _ (fun Xk =>
  if get5PointStencilIndices x (value_of Xk) is Ok indices
  then computeLagrangeDerivativeAtPoint (pick x indices) (pick f indices)
         (value_of Xk) else 0)) //.
by move=> Xk; have [s [_ ->]] := get5PointStencilIndices_nat (value_of Xk) n5.
Qed.

Lemma interpolationStep_fold rl rn X (l : seq nat) st :
  foldl (interpolationStep rl rn X) st l
  = (st.1.1 ++ [seq interpolationRow rl rn X i | i <- l],
     st.1.2 + \sum_(i <- l) interpolationDiff rl rn i,
     runningMax (interpolationDiff rl rn) st.2 l).
Proof.
elim: l st => [|i l IH] [[rows s] m] /=; first by rewrite cats0 big_nil addr0.
by rewrite IH /= -cat_rcons big_cons addrA.
Qed.

Lemma runningMax_spec (d : nat -> K) (m0 : K) (l : seq nat) :
  [/\ m0 <= runningMax d m0 l,
      forall i, i \in l -> d i <= runningMax d m0 l
    & (runningMax d m0 l == m0) || has (fun i => runningMax d m0 l == d i) l].
Proof.
rewrite /runningMax; elim: l m0 => [|i l IH] m0 /=; first by rewrite lexx eqxx.
set m1 := (if _ then _ else _).
have [H1 H2 H3] := IH m1.
have le01 : m0 <= m1 by rewrite /m1; case: ltP => // /ltW.
have lei1 : d i <= m1 by rewrite /m1; case: ltP.
split; first exact: le_trans le01 H1.
  move=> j; rewrite inE => /orP [/eqP ->|]; last exact: H2.
  exact: le_trans lei1 H1.
case/orP: H3 => [/eqP ->|->]; last by rewrite !orbT.
by rewrite /m1; case: ltP => _; rewrite eqxx ?orbT.
Qed.

Lemma runningMax0_mem (d : nat -> K) (l : seq nat) :
  (forall i, 0 <= d i) -> (0 < size l)%N ->
  runningMax d 0 l \in [seq d i | i <- l].
Proof.
move=> d0 l0; have [H1 H2 /orP [/eqP H3|/hasP [i Hi /eqP ->]]] :=
  runningMax_spec d 0 l; last exact: map_f.
case: l l0 {H1} H2 H3 => [//|i l] _ H2 H3.
have /eqP : d i == 0 by rewrite eq_le d0 andbT -H3 H2 // inE eqxx.
by rewrite H3 => <-; rewrite inE eqxx.
Qed.

Lemma interpolateNewton_finite x f (Xs : seq K) :
  size f = size x -> (2 <= size x)%N -> isStrictlyIncreasing (map Fin x) ->
  (0 < size Xs)%N ->
  interpolateNewton (finiteTable x f) (map Fin Xs)
  = Ok (InterpolationResult.mk (map Fin Xs)
          [seq evaluateNewtonAtPoint x (buildNewtonCoefficients x f) t
             | t <- Xs]).
Proof.
move=> sf n2; rewrite isStrictlyIncreasing_sorted => Sx X0.
rewrite /interpolateNewton validateTabular_finiteTable //=.
rewrite validatePointsToEvaluate_finite ?(leq_trans _ n2) //=.
by rewrite !map_value_of -map_comp.
Qed.

Lemma validateTabular_tooFew x f (m : nat) :
  size f = size x -> (size x < m)%N ->
  validateTabular (finiteTable x f) m = Err (TabularDataError TooFewPoints).
Proof. by move=> sf lt_m; rewrite /validateTabular /= !size_map sf eqxx lt_m. Qed.

Lemma validatePointsToEvaluate_empty (table : TabularFunction.t K) b :
  validatePointsToEvaluate table [::] b = Err (TabularDataError EmptyPoints).
Proof. by []. Qed.

Lemma validateTabular_isDataError (table : TabularFunction.t K) m e :
  validateTabular table m = Err e -> exists msg, e = TabularDataError msg.
Proof.
rewrite /validateTabular.
by do 4![case: ifP => _; first by case=> <-; eexists].
Qed.

Lemma buildInterpolationMethodsSummary_empty (table : TabularFunction.t K) :
  isDataError (buildInterpolationMethodsSummary table [::]).
Proof.
rewrite /buildInterpolationMethodsSummary /interpolateLagrange.
case E: validateTabular => [[]|e] //=.
by have [msg ->] := validateTabular_isDataError E.
Qed.

Lemma compareInterpolations_statistics rl rn X :
  (0 < size X)%N ->
  compareInterpolations rl rn X
  = InterpolationMethodsSummary.mk
      [seq interpolationRow rl rn X i | i <- iota 0 (size X)]
      ((\sum_(i <- iota 0 (size X)) interpolationDiff rl rn i) / (size X)%:R)
      (runningMax (interpolationDiff rl rn) 0 (iota 0 (size X))).
Proof.
move=> X0; rewrite /compareInterpolations.
by rewrite -/(interpolationStep rl rn X) interpolationStep_fold /= X0 add0r.
Qed.

Lemma buildInterpolationMethodsSummary_finite x f (Xs : seq K) :
  size f = size x -> (2 <= size x)%N -> isStrictlyIncreasing (map Fin x) ->
  (0 < size Xs)%N ->
  let L := interpolateLagrangeAtPoint x f in
  let N := evaluateNewtonAtPoint x (buildNewtonCoefficients x f) in
  let d := fun t => `|L t - N t| in
  exists M,
    [/\ buildInterpolationMethodsSummary (finiteTable x f) (map Fin Xs)
        = Ok (InterpolationMethodsSummary.mk
                [seq InterpolationComparisonRow.mk (Fin t) (L t) (N t) (d t)
                   | t <- Xs]
                ((\sum_(t <- Xs) d t) / (size Xs)%:R) M),
        M \in [seq d t | t <- Xs]
      & forall t, t \in Xs -> d t <= M].
Proof.
move=> sf n2 Sx X0 L N d.
rewrite /buildInterpolationMethodsSummary interpolateLagrange_finite //.
rewrite interpolateNewton_finite // /bind.
set rl := InterpolationResult.mk _ _; set rn := InterpolationResult.mk _ _.
rewrite compareInterpolations_statistics size_map //.
have Hd i : (i < size Xs)%N -> interpolationDiff rl rn i = d (nth 0 Xs i).
  by move=> lt_i; rewrite /interpolationDiff /= !(nth_map 0).
have Hrow i : i \in iota 0 (size Xs) ->
    interpolationRow rl rn (map Fin Xs) i
    = (fun t => InterpolationComparisonRow.mk (Fin t) (L t) (N t) (d t))
        (nth 0 Xs i).
  rewrite mem_iota add0n /= => lt_i.
  by rewrite /interpolationRow Hd //= !(nth_map 0).
have Hdl : [seq interpolationDiff rl rn i | i <- iota 0 (size Xs)]
           = [seq d t | t <- Xs].
  rewrite -(map_nth_iota 0 d); apply/eq_in_map => i.
  by rewrite mem_iota add0n /=; exact: Hd.
exists (runningMax (interpolationDiff rl rn) 0 (iota 0 (size Xs))); split.
- congr (Ok (InterpolationMethodsSummary.mk _ _ _)).
    by rewrite -[RHS](map_nth_iota 0); apply/eq_in_map.
  congr (_ / _).
  by rewrite -(big_map (interpolationDiff rl rn) predT id) Hdl big_map.
- rewrite -Hdl; apply: runningMax0_mem => [i|]; first exact: normr_ge0.
  by rewrite size_iota.
- move=> t /(nthP 0) [i lt_i <-]; rewrite -Hd //.
  have [_ H _] := runningMax_spec (interpolationDiff rl rn) 0 (iota 0 (size Xs)).
  by apply: H; rewrite mem_iota.
Qed.

(** The summary when only one method produced a result: the other method's
    field and the difference are [null] in every row, the aggregates are
    [null]. *)
Lemma compareDerivatives_only_interpolation X (r : DerivativeResult.t K) :
  size (DerivativeResult.Fd r) = size X ->
  compareDerivatives (Some r) None X
  = DifferentiationMethodsSummary.mk
      [seq DifferentiationComparisonRow.mk (nth NaN X i)
             (Some (nth 0 (DerivativeResult.Fd r) i)) None None
         | i <- iota 0 (size X)]
      None None.
Proof.
move=> sr; have Hnone : ~~ has (bothAt (Some r) None) (iota 0 (size X)).
  by rewrite -all_predC; apply/allP => i _; rewrite /= /bothAt andbF.
rewrite (compareDerivatives_none Hnone).
congr DifferentiationMethodsSummary.mk; apply/eq_in_map => i.
rewrite mem_iota add0n /= -sr => lt_i.
by rewrite /derivativeRow /= (onth_size 0).
Qed.

Lemma compareDerivatives_only_approximation X (r : DerivativeResult.t K) :
  size (DerivativeResult.Fd r) = size X ->
  compareDerivatives None (Some r) X
  = DifferentiationMethodsSummary.mk
      [seq DifferentiationComparisonRow.mk (nth NaN X i)
             None (Some (nth 0 (DerivativeResult.Fd r) i)) None
         | i <- iota 0 (size X)]
      None None.
Proof.
move=> sr; have Hnone : ~~ has (bothAt None (Some r)) (iota 0 (size X)).
  by rewrite -all_predC; apply/allP => i _.
rewrite (compareDerivatives_none Hnone).
congr DifferentiationMethodsSummary.mk; apply/eq_in_map => i.
rewrite mem_iota add0n /= -sr => lt_i.
by rewrite /derivativeRow /= (onth_size 0).
Qed.

Lemma validatePointsToEvaluate_Ok (table : TabularFunction.t K) X b :
  validatePointsToEvaluate table X b = Ok tt ->
  exists Xs : seq K, X = map Fin Xs /\ (0 < size Xs)%N.
Proof.
rewrite /validatePointsToEvaluate; case: eqP => // /eqP X0.
case Hfin: (has _ X) => // _.
exists (map (@value_of K) X); rewrite size_map lt0n X0; split=> //.
apply: all_finiteP; move/negbT: Hfin; rewrite -all_predC.
by apply: sub_all => v /=; rewrite negbK.
Qed.

End KernelProperties.

(** ** The properties of the specification *)

Section Claims.

Variable K : realFieldType.
Context {literals : Literals K}.

Implicit Types (x f : seq K) (t h : K) (p : {poly K}).
Implicit Types (X : seq (number K)).

(** C1.  On a table with strictly increasing nodes, Newton's method (the
    divided-difference coefficients of [buildNewtonCoefficients] followed by
    the nested evaluation) returns at every point the value that Lagrange's
    method returns, and the two entry points [interpolateNewton] and
    [interpolateLagrange] return the same result on every set of points. *)
Theorem newton_agrees_with_lagrange x f :
  isStrictlyIncreasing (map Fin x) -> size f = size x -> (0 < size x)%N ->
  (forall Xk, evaluateNewtonAtPoint x (buildNewtonCoefficients x f) Xk
              = interpolateLagrangeAtPoint x f Xk)
  /\ (forall X, interpolateNewton (finiteTable x f) X
                = interpolateLagrange (finiteTable x f) X).
Proof.
rewrite isStrictlyIncreasing_sorted => Sx sf n0; split=> [Xk|X].
  by rewrite newton_lagrange_atPoint ?sorted_lt_uniq.
exact: interpolateNewton_Lagrange.
Qed.

(** C2.  When the table samples a polynomial [p] of degree at most [n-1] at
    [n >= 2] strictly increasing nodes, the Lagrange evaluation and the
    Newton evaluation both return [p(Xk)] at every point [Xk], and so agree
    with each other. *)
Theorem interpolation_reproduces_polynomial x p (Xk : K) :
  isStrictlyIncreasing (map Fin x) -> (2 <= size x)%N ->
  (size p <= size x)%N ->
  let f := [seq p.[u] | u <- x] in
  [/\ interpolateLagrangeAtPoint x f Xk = p.[Xk],
      evaluateNewtonAtPoint x (buildNewtonCoefficients x f) Xk = p.[Xk]
    & evaluateNewtonAtPoint x (buildNewtonCoefficients x f) Xk
      = interpolateLagrangeAtPoint x f Xk].
Proof.
rewrite isStrictlyIncreasing_sorted => Sx n2 sp f.
have Ux := sorted_lt_uniq Sx.
have n0 : (0 < size x)%N by apply: leq_trans n2.
by rewrite /f lagrange_exact // newton_exact.
Qed.

(** C4.  On an array of at least five values, at an index inside the array,
    [finiteDifference5AtIndex] returns the formula that the specification
    assigns to the index range containing the index; exactly one of the five
    ranges contains it, so the order of the tests is immaterial. *)
Theorem finiteDifference5_selects_formula f (i : nat) h :
  (5 <= size f)%N -> (i < size f)%N -> h != 0 ->
  (exists v, finiteDifference5AtIndex f i h = Ok v
             /\ specFiniteDifference5 f i h = Some v)
  /\ count id (formulaRanges (size f) i) = 1%N.
Proof.
move=> n5 lt_i _; split; first exact: finiteDifference5AtIndex_spec.
exact: formulaRanges_exclusive.
Qed.


(** C6.  When the interpolation method succeeds and the finite-difference
    method raises, the summary has one row per point, carrying the point, the
    computed derivative, [null] for the other method and for the difference,
    and both aggregates are [null]; and symmetrically when only the
    finite-difference method succeeds. *)
Theorem summary_when_one_method_fails (table : TabularFunction.t K) X
    (r : DerivativeResult.t K) (e : error) :
  (differentiateByInterpolation5 table X = Ok r ->
   differentiateByApproximation5 table X = Err e ->
   size (DerivativeResult.Fd r) = size X
   /\ buildDifferentiationMethodsSummary table X
      = DifferentiationMethodsSummary.mk
          [seq DifferentiationComparisonRow.mk (nth NaN X i)
                 (Some (nth 0 (DerivativeResult.Fd r) i)) None None
             | i <- iota 0 (size X)]
          None None)
  /\ (differentiateByApproximation5 table X = Ok r ->
      differentiateByInterpolation5 table X = Err e ->
      size (DerivativeResult.Fd r) = size X
      /\ buildDifferentiationMethodsSummary table X
         = DifferentiationMethodsSummary.mk
             [seq DifferentiationComparisonRow.mk (nth NaN X i)
                    None (Some (nth 0 (DerivativeResult.Fd r) i)) None
                | i <- iota 0 (size X)]
             None None).
Proof.
rewrite /buildDifferentiationMethodsSummary; split=> Hok Herr.
  have [_ sr] := differentiateByInterpolation5_Ok Hok.
  by rewrite Hok Herr /= compareDerivatives_only_interpolation.
have [_ sr] := differentiateByApproximation5_Ok Hok.
by rewrite Hok Herr /= compareDerivatives_only_approximation.
Qed.


(** C10.  [buildDifferentiationMethodsSummary] returns a summary for every
    table and every [X], whatever their shape: its rows carry the points of
    [X] in order, one row per point, and when both methods fail every method
    field and difference is [null] and both aggregates are [null]. *)
Theorem differentiation_summary_total (table : TabularFunction.t K) X :
  let s := buildDifferentiationMethodsSummary table X in
  [seq DifferentiationComparisonRow.X row
     | row <- DifferentiationMethodsSummary.rows s] = X
  /\ (isOk (differentiateByInterpolation5 table X) = false ->
      isOk (differentiateByApproximation5 table X) = false ->
      s = DifferentiationMethodsSummary.mk
            [seq DifferentiationComparisonRow.mk Xk None None None | Xk <- X]
            None None).
Proof.
rewrite /= /buildDifferentiationMethodsSummary; split.
  rewrite compareDerivatives_rows -map_comp.
  by rewrite -[RHS]map_id -[RHS](map_nth_iota NaN).
case: differentiateByInterpolation5 => // e1 _.
case: differentiateByApproximation5 => // e2 _.
have Hnone : ~~ has (@bothAt K None None) (iota 0 (size X)).
  by rewrite -all_predC; apply/allP.
rewrite /= (compareDerivatives_none Hnone).
congr DifferentiationMethodsSummary.mk.
exact: (map_nth_iota NaN
          (fun Xk => DifferentiationComparisonRow.mk Xk None None None)).
Qed.


(** C9.  On a valid table and a non-empty set of finite points one of which
    lies outside the node span, both interpolation entry points return a
    value for every point, while both differentiation entry points fail with
    a data error. *)
Theorem extrapolation_policy x f (Xs : seq K) :
  size f = size x -> (2 <= size x)%N -> isStrictlyIncreasing (map Fin x) ->
  (0 < size Xs)%N -> ~~ all (inSpan x) Xs ->
  [/\ interpolateLagrange (finiteTable x f) (map Fin Xs)
      = Ok (InterpolationResult.mk (map Fin Xs)
              [seq interpolateLagrangeAtPoint x f t | t <- Xs]),
      interpolateNewton (finiteTable x f) (map Fin Xs)
      = Ok (InterpolationResult.mk (map Fin Xs)
              [seq evaluateNewtonAtPoint x (buildNewtonCoefficients x f) t
                 | t <- Xs]),
      isDataError (differentiateByInterpolation5 (finiteTable x f) (map Fin Xs))
    & isDataError (differentiateByApproximation5 (finiteTable x f) (map Fin Xs))].
Proof.
move=> sf n2 Sx X0 Hout.
have n0 : (0 < size x)%N by apply: leq_trans n2.
split; first exact: interpolateLagrange_finite.
- exact: interpolateNewton_finite.
- rewrite /differentiateByInterpolation5; case: (ltnP (size x) 5) => [lt5|n5].
    by rewrite validateTabular_tooFew.
  rewrite validateTabular_finiteTable -?isStrictlyIncreasing_sorted //=.
  rewrite /validateMinPointsForMethod /= size_map ltnNge n5 /=.
  by rewrite validatePointsToEvaluate_finite // Hout.
- rewrite /differentiateByApproximation5; case: (ltnP (size x) 5) => [lt5|n5].
    by rewrite validateTabular_tooFew.
  rewrite validateTabular_finiteTable -?isStrictlyIncreasing_sorted //=.
  rewrite /validateMinPointsForMethod /= size_map ltnNge n5 /=.
  case: getApproximateStep => [h|] //; case: ifP => // _.
  by rewrite validatePointsToEvaluate_finite // Hout.
Qed.

End Claims.

(** ** The sample data *)

Lemma horner_quarticPoly u : quarticPoly.[u] = quartic u.
Proof. by rewrite /quarticPoly /quartic !hornerE. Qed.

Lemma horner_deriv_quarticPoly u : quarticPoly^`().[u] = quarticDerivative u.
Proof.
by rewrite /quarticPoly /quarticDerivative !derivE !hornerE /=; ring.
Qed.

Lemma size_quarticPoly : (size quarticPoly <= 5)%N.
Proof.
rewrite /quarticPoly.
apply: leq_trans (size_polyD _ _) _; rewrite geq_max; apply/andP; split;
  last by rewrite size_polyN size_poly1.
apply: leq_trans (size_polyD _ _) _; rewrite geq_max; apply/andP; split;
  last by rewrite size_polyX.
apply: leq_trans (size_polyD _ _) _; rewrite geq_max; apply/andP; split;
  first by rewrite size_polyXn.
by rewrite size_polyN (leq_trans (size_scale_leq _ _)) // size_polyXn.
Qed.

Lemma quarticNodes_increasing : isStrictlyIncreasing (map Fin quarticNodes).
Proof. by vm_compute. Qed.

Lemma midPoints_inSpan : all (inSpan quarticNodes) midPoints.
Proof. by vm_compute. Qed.

Lemma size_quadraticPoly : (size quadraticPoly <= 3)%N.
Proof.
rewrite /quadraticPoly.
apply: leq_trans (size_polyD _ _) _; rewrite geq_max; apply/andP; split;
  last by rewrite size_polyC; case: (_ != _).
apply: leq_trans (size_polyD _ _) _; rewrite geq_max; apply/andP; split;
  first by rewrite size_polyXn.
by rewrite (leq_trans (size_scale_leq _ _)) // size_polyX.
Qed.

Lemma quartic_interpolation5 :
  differentiateByInterpolation5
    (finiteTable quarticNodes quarticValues) (map Fin midPoints)
  = Ok (DerivativeResult.mk (map Fin midPoints)
          [seq quarticDerivative t | t <- midPoints]).
Proof.
rewrite /quarticValues -(eq_map horner_quarticPoly).
rewrite -(eq_map horner_deriv_quarticPoly).
apply: differentiateByInterpolation5_exact.
- exact: quarticNodes_increasing.
- by [].
- exact: size_quarticPoly.
- by [].
- exact: midPoints_inSpan.
Qed.

Lemma quartic_approximation5 :
  differentiateByApproximation5
    (finiteTable quarticNodes quarticValues) (map Fin midPoints)
  = Err (TabularDataError NotNearNode).
Proof. by vm_compute. Qed.

Example uneven_grid_rejected :
  differentiateByApproximation5
    (finiteTable unevenNodes unevenValues) (map Fin [:: 1; 2%:R])
  = Err (TabularDataError NotUniform).
Proof. by vm_compute. Qed.

Example uneven_grid_summary :
  DifferentiationMethodsSummary.meanAbsDiff
    (buildDifferentiationMethodsSummary
       (finiteTable unevenNodes unevenValues) (map Fin [:: 1; 2%:R]))
  = None.
Proof. by vm_compute. Qed.

Example short_table_stencil :
  get5PointStencilIndices [:: 0; 1; 2%:R; 3%:R] (1 : rat)
  = Err (TabularDataError StencilNeedsFive).
Proof. by vm_compute. Qed.

Example stencil_at_left_edge :
  get5PointStencilIndices quarticNodes (- 2%:R)
  = Ok [:: 0; 1; 2; 3; 4]%coqZ.
Proof. by vm_compute. Qed.

Example stencil_at_right_edge :
  get5PointStencilIndices (rcons quarticNodes 3%:R) 3%:R
  = Ok [:: 1; 2; 3; 4; 5]%coqZ.
Proof. by vm_compute. Qed.

(** ** The derivative of a sampled quartic *)

(** C3.  For a polynomial [p] of degree at most 4 sampled at five or more
    strictly increasing nodes, [differentiateByInterpolation5] returns the
    derivative [p'(Xk)] at every in-range point; in particular, on the nodes
    -2, -1, 0, 1, 2 with values [x^4 - 2x^3 + x - 1] and the points -1.5,
    -0.5, 0.5, 1.5 it returns [4 X^3 - 6 X^2 + 1]. *)
Theorem interpolation5_exact_derivative :
  (forall (K : realFieldType) (x : seq K) (p : {poly K}) (Xs : seq K),
     isStrictlyIncreasing (map Fin x) -> (5 <= size x)%N -> (size p <= 5)%N ->
     (0 < size Xs)%N -> all (inSpan x) Xs ->
     differentiateByInterpolation5
       (finiteTable x [seq p.[u] | u <- x]) (map Fin Xs)
     = Ok (DerivativeResult.mk (map Fin Xs) [seq p^`().[t] | t <- Xs]))
  /\ differentiateByInterpolation5
       (finiteTable quarticNodes quarticValues) (map Fin midPoints)
     = Ok (DerivativeResult.mk (map Fin midPoints)
             [seq quarticDerivative t | t <- midPoints]).
Proof.
split; first exact: differentiateByInterpolation5_exact.
exact: quartic_interpolation5.
Qed.

(** ** Instances of the properties on the sample data *)

Lemma newton_agrees_with_lagrange_witness :
  [/\ isStrictlyIncreasing (map Fin quadraticNodes),
      size quadraticValues = size quadraticNodes,
      (0 < size quadraticNodes)%N
    & (forall Xk,
         evaluateNewtonAtPoint quadraticNodes
           (buildNewtonCoefficients quadraticNodes quadraticValues) Xk
         = interpolateLagrangeAtPoint quadraticNodes quadraticValues Xk)
      /\ (forall X,
            interpolateNewton (finiteTable quadraticNodes quadraticValues) X
            = interpolateLagrange
                (finiteTable quadraticNodes quadraticValues) X)].
Proof.
have H1 : isStrictlyIncreasing (map Fin quadraticNodes) by vm_compute.
have H2 : size quadraticValues = size quadraticNodes by reflexivity.
have H3 : (0 < size quadraticNodes)%N by reflexivity.
split; [exact: H1 | exact: H2 | exact: H3 |].
exact: (newton_agrees_with_lagrange H1 H2 H3).
Defined.

Lemma interpolation_reproduces_polynomial_witness :
  [/\ isStrictlyIncreasing (map Fin quadraticNodes),
      (2 <= size quadraticNodes)%N,
      (size quadraticPoly <= size quadraticNodes)%N
    & let f := [seq quadraticPoly.[u] | u <- quadraticNodes] in
      [/\ interpolateLagrangeAtPoint quadraticNodes f (1 / 2%:R)
          = quadraticPoly.[1 / 2%:R],
          evaluateNewtonAtPoint quadraticNodes
            (buildNewtonCoefficients quadraticNodes f) (1 / 2%:R)
          = quadraticPoly.[1 / 2%:R]
        & evaluateNewtonAtPoint quadraticNodes
            (buildNewtonCoefficients quadraticNodes f) (1 / 2%:R)
          = interpolateLagrangeAtPoint quadraticNodes f (1 / 2%:R)]].
Proof.
have H1 : isStrictlyIncreasing (map Fin quadraticNodes) by vm_compute.
have H2 : (2 <= size quadraticNodes)%N by reflexivity.
have H3 : (size quadraticPoly <= size quadraticNodes)%N.
  exact: size_quadraticPoly.
split; [exact: H1 | exact: H2 | exact: H3 |].
exact: (interpolation_reproduces_polynomial (1 / 2%:R) H1 H2 H3).
Defined.

Lemma finiteDifference5_selects_formula_witness :
  [/\ (5 <= size quarticValues)%N, (2 < size quarticValues)%N,
      (1 : rat) != 0
    & (exists v, finiteDifference5AtIndex quarticValues 2 1 = Ok v
                 /\ specFiniteDifference5 quarticValues 2 1 = Some v)
      /\ count id (formulaRanges (size quarticValues) 2) = 1%N].
Proof.
have H1 : (5 <= size quarticValues)%N by reflexivity.
have H2 : (2 < size quarticValues)%N by reflexivity.
have H3 : (1 : rat) != 0 by vm_compute.
split; [exact: H1 | exact: H2 | exact: H3 |].
exact: (finiteDifference5_selects_formula H1 H2 H3).
Defined.


Lemma interpolation5_exact_derivative_witness :
  [/\ isStrictlyIncreasing (map Fin quarticNodes),
      (5 <= size quarticNodes)%N,
      (size quarticPoly <= 5)%N,
      (0 < size midPoints)%N
    & all (inSpan quarticNodes) midPoints
      /\ differentiateByInterpolation5
           (finiteTable quarticNodes [seq quarticPoly.[u] | u <- quarticNodes])
           (map Fin midPoints)
         = Ok (DerivativeResult.mk (map Fin midPoints)
                 [seq quarticPoly^`().[t] | t <- midPoints])].
Proof.
have H1 : isStrictlyIncreasing (map Fin quarticNodes) by vm_compute.
have H2 : (5 <= size quarticNodes)%N by reflexivity.
have H3 := size_quarticPoly.
have H4 : (0 < size midPoints)%N by reflexivity.
have H5 : all (inSpan quarticNodes) midPoints by vm_compute.
split; [exact: H1 | exact: H2 | exact: H3 | exact: H4 |].
split; [exact: H5 |].
exact: (proj1 interpolation5_exact_derivative _ _ _ _ H1 H2 H3 H4 H5).
Defined.

Lemma summary_when_one_method_fails_witness :
  let table := finiteTable quarticNodes quarticValues in
  let X := map Fin midPoints in
  let r := DerivativeResult.mk X [seq quarticDerivative t | t <- midPoints] in
  [/\ differentiateByInterpolation5 table X = Ok r,
      differentiateByApproximation5 table X
      = Err (TabularDataError NotNearNode)
    & size (DerivativeResult.Fd r) = size X
      /\ buildDifferentiationMethodsSummary table X
         = DifferentiationMethodsSummary.mk
             [seq DifferentiationComparisonRow.mk (nth NaN X i)
                    (Some (nth 0 (DerivativeResult.Fd r) i)) None None
                | i <- iota 0 (size X)]
             None None].
Proof.
move=> table X r.
have H1 : differentiateByInterpolation5 table X = Ok r.
  exact: quartic_interpolation5.
have H2 : differentiateByApproximation5 table X
          = Err (TabularDataError NotNearNode).
  exact: quartic_approximation5.
split; [exact: H1 | exact: H2 |].
exact: (proj1 (summary_when_one_method_fails table X r
                 (TabularDataError NotNearNode)) H1 H2).
Defined.




(** On these two value arrays the differences are 1, 2 and 0: the mean is 1
    and the maximum 2. *)
Example summary_of_unequal_values :
  let X : seq (number rat) := [:: Fin 0; Fin 1; Fin 2%:R] in
  let s := compareInterpolations
             (InterpolationResult.mk X [:: 1; 5%:R; 2%:R])
             (InterpolationResult.mk X [:: 2%:R; 3%:R; 2%:R]) X in
  (InterpolationMethodsSummary.meanAbsDiff s == 1)
  && (InterpolationMethodsSummary.maxAbsDiff s == 2%:R).
Proof. by vm_compute. Qed.

Lemma extrapolation_policy_witness :
  let x := quarticNodes in
  let f := quarticValues in
  let Xs := outsidePoints in
  [/\ size f = size x, (2 <= size x)%N, isStrictlyIncreasing (map Fin x),
      (0 < size Xs)%N
    & ~~ all (inSpan x) Xs
      /\ [/\ interpolateLagrange (finiteTable x f) (map Fin Xs)
             = Ok (InterpolationResult.mk (map Fin Xs)
                     [seq interpolateLagrangeAtPoint x f t | t <- Xs]),
             interpolateNewton (finiteTable x f) (map Fin Xs)
             = Ok (InterpolationResult.mk (map Fin Xs)
                     [seq evaluateNewtonAtPoint x
                            (buildNewtonCoefficients x f) t
                        | t <- Xs]),
             isDataError
               (differentiateByInterpolation5 (finiteTable x f) (map Fin Xs))
           & isDataError
               (differentiateByApproximation5 (finiteTable x f) (map Fin Xs))]].
Proof.
move=> x f Xs.
have H1 : size f = size x by reflexivity.
have H2 : (2 <= size x)%N by reflexivity.
have H3 : isStrictlyIncreasing (map Fin x) by vm_compute.
have H4 : (0 < size Xs)%N by reflexivity.
have H5 : ~~ all (inSpan x) Xs by vm_compute.
split; [exact: H1 | exact: H2 | exact: H3 | exact: H4 |].
split; [exact: H5 |].
exact: (extrapolation_policy H1 H2 H3 H4 H5).
Defined.

Lemma differentiation_summary_total_witness :
  [/\ isOk (differentiateByInterpolation5 malformedTable oddPoints) = false,
      isOk (differentiateByApproximation5 malformedTable oddPoints) = false
    & buildDifferentiationMethodsSummary malformedTable oddPoints
      = DifferentiationMethodsSummary.mk
          [seq DifferentiationComparisonRow.mk Xk None None None
             | Xk <- oddPoints]
          None None].
Proof.
have H1 : isOk (differentiateByInterpolation5 malformedTable oddPoints) = false.
  by vm_compute.
have H2 : isOk (differentiateByApproximation5 malformedTable oddPoints) = false.
  by vm_compute.
split; [exact: H1 | exact: H2 |].
exact: (proj2 (differentiation_summary_total malformedTable oddPoints) H1 H2).
Defined.

(** * Further properties of the code

    Properties of the grid utilities, the validators, the interpolation
    kernels, the finite-difference formulas, the summaries and the entry
    points, read off the code. *)

Section FurtherKernelProperties.

Variable K : realFieldType.
Context {literals : Literals K}.

Implicit Types (x f : seq K) (t h : K) (p q : {poly K}).
Implicit Types (ri ra : option (DerivativeResult.t K)) (X : seq (number K)).
Implicit Types (table : TabularFunction.t K).

(** *** The scan of [findNearestIndex] *)

Lemma nearestStep_scan x Xk (k m : nat) (st : nat * K) :
  (st.1 < m)%N -> st.2 = `|nth 0 x st.1 - Xk| ->
  (forall j, (j < m)%N -> st.2 <= `|nth 0 x j - Xk|) ->
  (forall j, (j < st.1)%N -> st.2 < `|nth 0 x j - Xk|) ->
  let st' := foldl (nearestStep x Xk) st (iota m k) in
  [/\ (st'.1 < m + k)%N, st'.2 = `|nth 0 x st'.1 - Xk|,
      forall j, (j < m + k)%N -> st'.2 <= `|nth 0 x j - Xk|
    & forall j, (j < st'.1)%N -> st'.2 < `|nth 0 x j - Xk|].
Proof.
elim: k m st => [|k IH] m [idx md] /= lt_idx Hd Hle Hlt.
  by rewrite addn0.
rewrite addnS -addSn; apply: IH.
- by case: ifP => _ /=; rewrite ?ltnS // ltnW.
- by case: ifP.
- move=> j; rewrite ltnS leq_eqVlt => /orP [/eqP ->|lt_j].
    by case: ltP => //=.
  case: ltP => /= [lt|_]; last exact: Hle.
  by apply: ltW; apply: lt_le_trans lt (Hle _ lt_j).
- case: ltP => /= [lt j lt_j|_]; last exact: Hlt.
  exact: lt_le_trans lt (Hle _ lt_j).
Qed.

Lemma findNearestIndex_first x Xk :
  (0 < size x)%N ->
  exists i, [/\ findNearestIndex x Xk = Ok i, (i < size x)%N,
                forall j, (j < size x)%N ->
                  `|nth 0 x i - Xk| <= `|nth 0 x j - Xk|
              & forall j, (j < i)%N -> `|nth 0 x i - Xk| < `|nth 0 x j - Xk|].
Proof.
move=> n0; rewrite /findNearestIndex eqn0Ngt n0 /=.
set st0 := (0%N, _); set st' := foldl _ _ _.
have [] := @nearestStep_scan x Xk (size x - 1) 1 st0 (ltn0Sn _) (erefl _).
- by case.
- by [].
rewrite -/st' add1n subn1 prednK // => H1 H2 H3 H4.
by exists st'.1; split=> // j lt_j; rewrite -H2; [apply: H3 | apply: H4].
Qed.

Lemma findNearestIndex_at_node x (k : nat) :
  uniq x -> (k < size x)%N -> findNearestIndex x (nth 0 x k) = Ok k.
Proof.
move=> Ux lt_k; have n0 : (0 < size x)%N by apply: leq_ltn_trans lt_k.
have [i [-> lt_i Hmin _]] := findNearestIndex_first (nth 0 x k) n0.
have := Hmin k lt_k; rewrite subrr normr0 normr_le0 subr_eq0 => /eqP eq_ik.
by congr Ok; apply/eqP; rewrite -(nth_uniq 0 lt_i lt_k Ux); apply/eqP.
Qed.

(** *** Interpolation at the nodes *)

Lemma lagrange_at_nodes x f :
  uniq x -> size f = size x ->
  [seq interpolateLagrangeAtPoint x f t | t <- x] = f.
Proof.
move=> Ux eq_sz; apply: (@eq_from_nth _ 0); first by rewrite size_map.
move=> k; rewrite size_map => lt_k.
by rewrite (nth_map 0) // -horner_lagrangePoly lagrangePoly_node.
Qed.

(** *** Polynomials of degree at most four on a uniform grid *)

Lemma horner_quartic p t :
  (size p <= 5)%N ->
  p.[t] = p`_0 + p`_1 * t + p`_2 * t ^+ 2 + p`_3 * t ^+ 3 + p`_4 * t ^+ 4.
Proof.
move=> sz; rewrite (horner_coef_wide t sz) !big_ord_recr big_ord0 /=.
by rewrite add0r expr0 mulr1 expr1.
Qed.

Lemma horner_deriv_quartic p t :
  (size p <= 5)%N ->
  p^`().[t] = p`_1 + 2%:R * p`_2 * t + 3%:R * p`_3 * t ^+ 2
              + 4%:R * p`_4 * t ^+ 3.
Proof.
move=> sz.
have sz' : (size p^`() <= 4)%N.
  have [->|nz] := eqVneq p 0; first by rewrite deriv0 size_poly0.
  by rewrite -ltnS (leq_trans (lt_size_deriv nz)).
rewrite (horner_coef_wide t sz') !big_ord_recr big_ord0 /= !coef_deriv.
by rewrite add0r expr0 mulr1 expr1 mulr1n -[p`_2 *+ 2]mulr_natl
  -[p`_3 *+ 3]mulr_natl -[p`_4 *+ 4]mulr_natl.
Qed.

Lemma size_uniformGrid (x0 h : K) n : size (uniformGrid x0 h n) = n.
Proof. by rewrite size_map size_iota. Qed.

Lemma nth_uniformGrid (x0 h : K) n k :
  (k < n)%N -> nth 0 (uniformGrid x0 h n) k = x0 + k%:R * h.
Proof. by move=> lt_k; rewrite (nth_map 0%N) ?size_iota // nth_iota. Qed.

Lemma nth_samples p (x0 h : K) n k :
  (k < n)%N ->
  nth 0 [seq p.[t] | t <- uniformGrid x0 h n] k = p.[x0 + k%:R * h].
Proof.
by move=> lt_k; rewrite (nth_map 0) ?size_uniformGrid // nth_uniformGrid.
Qed.

(** Each of the five formulas differentiates a polynomial of degree at most
    four exactly: the identity is checked formula by formula on the
    coefficients. *)
Lemma finiteDifference5AtIndex_uniformGrid p (x0 h : K) (n i : nat) :
  (size p <= 5)%N -> (5 <= n)%N -> (i < n)%N -> h != 0 ->
  finiteDifference5AtIndex [seq p.[t] | t <- uniformGrid x0 h n] i h
  = Ok p^`().[x0 + i%:R * h].
Proof.
move=> sz n5 lt_i h0.
rewrite /finiteDifference5AtIndex size_map size_uniformGrid ltnNge n5 /=.
have S k : (k < n)%N ->
    nth 0 [seq p.[t] | t <- uniformGrid x0 h n] k
    = p`_0 + p`_1 * (x0 + k%:R * h) + p`_2 * (x0 + k%:R * h) ^+ 2
      + p`_3 * (x0 + k%:R * h) ^+ 3 + p`_4 * (x0 + k%:R * h) ^+ 4.
  by move=> lt_k; rewrite nth_samples // horner_quartic.
rewrite horner_deriv_quartic //.
have nz : 12%:R * h != 0 by rewrite mulf_neq0 // pnatr_eq0.
move: S; move: (p`_0) (p`_1) (p`_2) (p`_3) (p`_4) => c0 c1 c2 c3 c4 S.
case: eqVneq => [->|i0].
  rewrite !S ?(leq_trans _ n5) //; congr Ok; apply: (canLR (mulfK nz)); ring.
case: eqVneq => [->|i1].
  rewrite !S ?(leq_trans _ n5) //; congr Ok; apply: (canLR (mulfK nz)); ring.
have i2 : (2 <= i)%N by case: i i0 i1 {lt_i} => [|[|]].
case: eqVneq => [eq_i|i3].
  have -> : (n - 1 = i + 1)%N by rewrite eq_i; nat_lia.
  have -> : (n - 2 = i)%N by [].
  have -> : (n - 3 = i - 1)%N by rewrite eq_i; nat_lia.
  have -> : (n - 4 = i - 2)%N by rewrite eq_i; nat_lia.
  have -> : (n - 5 = i - 3)%N by rewrite eq_i; nat_lia.
  have i3 : (3 <= i)%N by rewrite eq_i; nat_lia.
  rewrite !S; try by (rewrite ?eq_i; nat_lia).
  rewrite natrD !natrB //; try by nat_lia.
  congr Ok; apply: (canLR (mulfK nz)); ring.
case: eqVneq => [eq_i|i4].
  have -> : (n - 1 = i)%N by [].
  have -> : (n - 2 = i - 1)%N by rewrite eq_i; nat_lia.
  have -> : (n - 3 = i - 2)%N by rewrite eq_i; nat_lia.
  have -> : (n - 4 = i - 3)%N by rewrite eq_i; nat_lia.
  have -> : (n - 5 = i - 4)%N by rewrite eq_i; nat_lia.
  have i4 : (4 <= i)%N by rewrite eq_i; nat_lia.
  rewrite !S; try by (rewrite ?eq_i; nat_lia).
  rewrite !natrB //; try by nat_lia.
  congr Ok; apply: (canLR (mulfK nz)); ring.
have lt_i2 : (i + 2 < n)%N by nat_lia.
rewrite !S; try by nat_lia.
rewrite !natrD !natrB //; try by nat_lia.
congr Ok; apply: (canLR (mulfK nz)); ring.
Qed.

Lemma sorted_uniformGrid (x0 h : K) n :
  0 < h -> sorted <%R (uniformGrid x0 h n).
Proof.
move=> h0; apply/(sortedP 0) => i; rewrite size_uniformGrid => lt_i.
rewrite !nth_uniformGrid // ?(ltnW lt_i) // ltrD2l ltr_pM2r // ltr_nat.
exact: ltnSn.
Qed.

Lemma meanSpacing_uniformGrid (x0 h : K) n :
  (2 <= n)%N -> meanSpacing (uniformGrid x0 h n) = h.
Proof.
move=> n2; rewrite meanSpacingE size_uniformGrid.
have n0 : (0 < n)%N by apply: leq_trans n2.
rewrite !nth_uniformGrid ?prednK // mul0r addr0 addrC addKr subn1.
by rewrite mulrC mulKf // pnatr_eq0 -lt0n -subn1 subn_gt0.
Qed.

Lemma uniformGrid_uniform (x0 h tolerance : K) n :
  0 <= tolerance -> (2 <= n)%N ->
  nonUniform (uniformGrid x0 h n) tolerance = false.
Proof.
move=> tol0 n2; apply/hasPn => i; rewrite size_uniformGrid mem_iota.
have n0 : (0 < n)%N by apply: leq_trans n2.
rewrite add1n subn1 (prednK n0) => /andP [i0 lt_i].
have lt_p : (i.-1 < n)%N by apply: leq_ltn_trans lt_i; apply: leq_pred.
rewrite meanSpacing_uniformGrid // !nth_uniformGrid //.
rewrite -leNgt; have -> : i%:R = i.-1%:R + 1 :> K by rewrite natr1 prednK.
have -> : x0 + (i.-1%:R + 1) * h - (x0 + i.-1%:R * h) - h = 0 by ring.
by rewrite normr0.
Qed.

Lemma node_inSpan x (k : nat) :
  sorted <%R x -> (k < size x)%N -> inSpan x (nth 0 x k).
Proof.
move=> Sx lt_k; rewrite /inSpan.
have n0 : (0 < size x)%N by apply: leq_ltn_trans lt_k.
apply/andP; split.
  by case: k lt_k => [|k] lt_k //; apply: ltW; apply: sorted_lt_nth.
have : (k <= (size x).-1)%N by rewrite -ltnS prednK.
rewrite leq_eqVlt => /orP [/eqP -> //|lt]; apply: ltW.
by apply: sorted_lt_nth => //; rewrite prednK.
Qed.

Lemma node_near x h (k : nat) :
  0 <= nodeFactor :> K ->
  (k < size x)%N -> farFromNodes x h (nth 0 x k) = false.
Proof.
move=> fac0 lt_k; apply/negbTE/allPn; exists (nth 0 x k); first exact: mem_nth.
by rewrite subrr normr0 -leNgt mulr_ge0.
Qed.

Lemma within_tolerance_near x h t (k : nat) :
  (k < size x)%N -> `|t - nth 0 x k| <= `|h| * nodeFactor ->
  ~~ farFromNodes x h t.
Proof.
move=> lt_k near; apply/allPn; exists (nth 0 x k); first exact: mem_nth.
by rewrite -leNgt.
Qed.

Lemma differentiateByApproximation5_uniformGrid p (x0 h : K) (n : nat)
    (ks : seq nat) :
  0 <= gridTolerance :> K -> 0 <= nodeFactor :> K ->
  (size p <= 5)%N -> (5 <= n)%N -> 0 < h ->
  (0 < size ks)%N -> all (fun k => k < n)%N ks ->
  let x := uniformGrid x0 h n in
  let Xs := [seq nth 0 x k | k <- ks] in
  differentiateByApproximation5
    (finiteTable x [seq p.[t] | t <- x]) (map Fin Xs)
  = Ok (DerivativeResult.mk (map Fin Xs) [seq p^`().[t] | t <- Xs]).
Proof.
move=> tol0 fac0 sz n5 h0 ks0 lt_ks x Xs.
have Sx : sorted <%R x by apply: sorted_uniformGrid.
have Ux : uniq x by apply: sorted_lt_uniq.
have sx : size x = n by rewrite size_uniformGrid.
have n2 : (2 <= n)%N by apply: leq_trans n5.
have in_ks k : k \in ks -> (k < size x)%N.
  by rewrite sx => k_in; exact: (allP lt_ks).
have sf : size [seq p.[t] | t <- x] = size x by rewrite size_map.
have n5x : (5 <= size x)%N by rewrite sx.
have inc : isStrictlyIncreasing (map Fin x).
  by rewrite isStrictlyIncreasing_sorted.
have Xs0 : (0 < size Xs)%N by rewrite size_map.
have span : all (inSpan x) Xs.
  by apply/allP => t /mapP [k /in_ks lt_k ->]; apply: node_inSpan.
rewrite (differentiateByApproximation5_finite sf n5x inc Xs0 span).
rewrite uniformGrid_uniform // meanSpacing_uniformGrid //.
have -> : has (farFromNodes x h) Xs = false.
  by apply/hasPn => t /mapP [k /in_ks lt_k ->]; rewrite node_near.
congr (Ok (DerivativeResult.mk _ _)).
apply/eq_in_map => t /mapP [k /in_ks lt_k ->].
rewrite /approximationAt findNearestIndex_at_node //.
have lt_kn : (k < n)%N by rewrite -sx.
have nz : h != 0 by rewrite gt_eqF.
by rewrite /x (finiteDifference5AtIndex_uniformGrid x0 sz n5 lt_kn nz)
  nth_uniformGrid.
Qed.

(** *** The window of [get5PointStencilIndices] *)

Lemma get5PointStencilIndices_start x t :
  (5 <= size x)%N ->
  (stencilStart x t + 5 <= size x)%N
  /\ get5PointStencilIndices x t
     = Ok [seq Z.of_nat i | i <- iota (stencilStart x t) 5].
Proof.
move=> n5; have [nearest [start [Hn lt_n Hs -> [[H0 H1] _]]]] :=
  get5PointStencilIndices_window t n5.
have Es : start = Z.of_nat (stencilStart x t).
  rewrite /stencilStart Hn Hs /minn.
  move/ssrnat.leP: n5 => n5; move/ssrnat.ltP: lt_n => lt_n.
  by case: ltnP => [/ssrnat.ltP|/ssrnat.leP]; rewrite -!minusE => H; lia.
split.
  by apply/ssrnat.leP; rewrite -plusE; lia.
by congr Ok; rewrite Es /=; repeat (f_equal; try lia).
Qed.

(** *** The summary loop when both methods produced every value *)

Lemma compareStep_both ri ra X (a b : nat -> K) (l : seq nat) st :
  (forall i, i \in l ->
     valueAt ri i = Some (a i) /\ valueAt ra i = Some (b i)) ->
  foldl (compareStep ri ra X) st l
  = (st.1.1.1
       ++ [seq DifferentiationComparisonRow.mk (nth NaN X i)
                 (Some (a i)) (Some (b i)) (Some `|a i - b i|) | i <- l],
     st.1.1.2 + \sum_(i <- l) `|a i - b i|,
     runningMax (fun i => `|a i - b i|) st.1.2 l,
     (st.2 + size l)%N).
Proof.
elim: l st => [|i l IH] [[[rows s] m] c] /= Hin.
  by rewrite cats0 big_nil addr0 addn0.
have [-> ->] := Hin i (mem_head _ _).
have Hl j : j \in l -> valueAt ri j = Some (a j) /\ valueAt ra j = Some (b j).
  by move=> j_in; apply: Hin; rewrite inE j_in orbT.
rewrite (IH _ Hl) /=.
by rewrite -cat_rcons big_cons addrA addnS addSn.
Qed.

Lemma compareDerivatives_both X (r1 r2 : DerivativeResult.t K) :
  size (DerivativeResult.Fd r1) = size X ->
  size (DerivativeResult.Fd r2) = size X -> (0 < size X)%N ->
  let a i := nth 0 (DerivativeResult.Fd r1) i in
  let b i := nth 0 (DerivativeResult.Fd r2) i in
  compareDerivatives (Some r1) (Some r2) X
  = DifferentiationMethodsSummary.mk
      [seq DifferentiationComparisonRow.mk (nth NaN X i)
             (Some (a i)) (Some (b i)) (Some `|a i - b i|)
         | i <- iota 0 (size X)]
      (Some ((\sum_(i <- iota 0 (size X)) `|a i - b i|) / (size X)%:R))
      (Some (runningMax (fun i => `|a i - b i|) 0 (iota 0 (size X)))).
Proof.
move=> s1 s2 X0 a b; rewrite /compareDerivatives -/(compareStep _ _ X).
have Hb i : i \in iota 0 (size X) ->
    valueAt (Some r1) i = Some (a i) /\ valueAt (Some r2) i = Some (b i).
  rewrite mem_iota add0n /= => lt_i.
  by rewrite !(onth_size 0) ?s1 ?s2.
rewrite (@compareStep_both (Some r1) (Some r2) X a b _ _ Hb) /=.
by rewrite size_iota add0n add0r X0.
Qed.


(** *** The failures of the entry points *)

Lemma validateTabular_failure table (m : nat) :
  failsOnlyWith tableMessage (validateTabular table m).
Proof. by rewrite /validateTabular; do 4![case: ifP => _ //]. Qed.

Lemma validatePointsToEvaluate_failure table X (b : bool) :
  failsOnlyWith (if b then interpolation5Message else pointsMessage)
    (validatePointsToEvaluate table X b).
Proof.
by case: b; rewrite /validatePointsToEvaluate; do ![case: ifP => _ //].
Qed.

Lemma failsOnlyWith_sub (A : Type) (P Q : message -> bool) (r : result A) :
  (forall m, P m -> Q m) -> failsOnlyWith P r -> failsOnlyWith Q r.
Proof. by move=> sub; case: r => [a|[m|]] //=; apply: sub. Qed.

Lemma failsOnlyWith_bind (A B : Type) (P : message -> bool)
    (r : result A) (k : A -> result B) :
  failsOnlyWith P r -> (forall a, r = Ok a -> failsOnlyWith P (k a)) ->
  failsOnlyWith P (bind r k).
Proof. by case: r => [a|[m|]] //= _; apply. Qed.

Lemma forEach_failure (A B : Type) (P : message -> bool)
    (body : A -> result B) (s : seq A) :
  (forall a, failsOnlyWith P (body a)) -> failsOnlyWith P (forEach body s).
Proof.
move=> Hb; elim: s => [|a s IH] //=.
apply: failsOnlyWith_bind => [|b _]; first exact: Hb.
by apply: failsOnlyWith_bind => [|bs _].
Qed.

Lemma not_unsupported (A : Type) (P : message -> bool) (r : result A) :
  failsOnlyWith P r -> r <> Err MethodNotSupportedError.
Proof. by move=> H E; move: H; rewrite E. Qed.

Lemma interpolateLagrange_failure table X :
  failsOnlyWith interpolationMessage (interpolateLagrange table X).
Proof.
rewrite /interpolateLagrange; apply: failsOnlyWith_bind => [|_ _].
  apply: failsOnlyWith_sub (validateTabular_failure table 2) => m.
  by rewrite /interpolationMessage => ->.
apply: failsOnlyWith_bind => [|_ _] //.
apply: failsOnlyWith_sub (validatePointsToEvaluate_failure table X false) => m.
by rewrite /interpolationMessage => ->; rewrite orbT.
Qed.

Lemma differentiateByInterpolation5_failure table X :
  failsOnlyWith interpolation5Message (differentiateByInterpolation5 table X).
Proof.
rewrite /differentiateByInterpolation5.
case E: validateTabular => [[]|e] /=; last first.
  have := validateTabular_failure table 5; rewrite E.
  apply: failsOnlyWith_sub => m.
  by rewrite /interpolation5Message /interpolationMessage => ->.
have [x [f [-> sf n5 Sx]]] := validateTabular_Ok E.
rewrite /validateMinPointsForMethod /= size_map ltnNge n5 /=.
apply: failsOnlyWith_bind => [|_ _].
  exact: (validatePointsToEvaluate_failure _ X true).
rewrite !map_value_of; apply: failsOnlyWith_bind => [|Fd _] //.
apply: forEach_failure => Xk.
by have [s [_ ->]] := get5PointStencilIndices_nat (value_of Xk) n5.
Qed.

Lemma differentiateByApproximation5_failure table X :
  failsOnlyWith approximation5Message (differentiateByApproximation5 table X).
Proof.
rewrite /differentiateByApproximation5.
case E: validateTabular => [[]|e] /=; last first.
  have := validateTabular_failure table 5; rewrite E.
  apply: failsOnlyWith_sub => m.
  rewrite /approximation5Message /interpolation5Message.
  by rewrite /interpolationMessage => ->.
have [x [f [-> sf n5 Sx]]] := validateTabular_Ok E.
rewrite /validateMinPointsForMethod /= size_map ltnNge n5 /= !map_value_of.
case: getApproximateStep => [h|] //; case: ifP => // _.
apply: failsOnlyWith_bind => [|_ _].
  apply: failsOnlyWith_sub (validatePointsToEvaluate_failure _ X true) => m.
  by rewrite /approximation5Message => ->.
apply: failsOnlyWith_bind => [|Fd _] //.
apply: forEach_failure => Xk.
by rewrite approximation_body //; case: ifP.
Qed.

End FurtherKernelProperties.

(** ** The further properties *)

Section FurtherProperties.

Variable K : realFieldType.
Context {literals : Literals K}.

Implicit Types (x f : seq K) (t h : K) (p q : {poly K}).
Implicit Types (X : seq (number K)) (table : TabularFunction.t K).

(** X1.  In exact arithmetic (the distances [|x[i] - Xk|] compared without
    rounding), on a non-empty array [findNearestIndex] returns an index of
    the array whose element is at least as close to [Xk] as every other
    element, and strictly closer than every element before it: among equally
    near elements the first one wins. *)
Theorem nearest_index_first_minimum x (Xk : K) :
  (0 < size x)%N ->
  exists i, [/\ findNearestIndex x Xk = Ok i, (i < size x)%N,
                forall j, (j < size x)%N ->
                  `|nth 0 x i - Xk| <= `|nth 0 x j - Xk|
              & forall j, (j < i)%N -> `|nth 0 x i - Xk| < `|nth 0 x j - Xk|].
Proof. exact: findNearestIndex_first. Qed.

(** X2.  When the elements of the array are pairwise distinct and [Xk] is
    the element at index [k], [findNearestIndex] returns [k]. *)
Theorem nearest_index_of_node x (k : nat) :
  uniq x -> (k < size x)%N -> findNearestIndex x (nth 0 x k) = Ok k.
Proof. exact: findNearestIndex_at_node. Qed.

(** X3.  In exact arithmetic the sum of the consecutive differences is the
    span of the array, so [getApproximateStep] returns a step [h] exactly
    when the array has at least two elements, [h] is the span divided by the
    number of intervals, and every consecutive difference is within
    [tolerance] of [h]; in every other case it returns [null]. *)
Theorem getApproximateStep_mean x (tolerance : K) h :
  getApproximateStep x tolerance = Some h <->
  [/\ (2 <= size x)%N,
      h = (nth 0 x (size x).-1 - nth 0 x 0) / (size x - 1)%:R
    & forall i, (0 < i < size x)%N ->
        `|nth 0 x i - nth 0 x i.-1 - h| <= tolerance].
Proof.
rewrite getApproximateStepE -meanSpacingE ltnNge /nonUniform.
case: (leqP 2 (size x)) => [n2|n2] /=; last by split=> // -[].
have mem i : (i \in iota 1 (size x - 1)) = (0 < i < size x)%N.
  by rewrite mem_iota add1n subn1 prednK // (leq_trans _ n2).
case: hasP => [[i i_in far]|near]; split=> //.
- by case=> _ eq_h /(_ i); rewrite -mem i_in eq_h leNgt far => /(_ isT).
- case=> <-; split=> // i; rewrite -mem => i_in; rewrite leNgt.
  by apply/negP => far; apply: near; exists i.
- by case=> _ -> _.
Qed.

(** X4.  [validateTabular] accepts a table exactly when its two arrays hold
    finite numbers only, have the same length, have at least [minPoints]
    elements, and the nodes are strictly increasing. *)
Theorem validateTabular_accepts table (minPoints : nat) :
  validateTabular table minPoints = Ok tt <->
  exists x f, [/\ table = finiteTable x f, size f = size x,
                  (minPoints <= size x)%N & sorted <%R x].
Proof.
split; first exact: validateTabular_Ok.
by case=> x [f [-> eq_sz le_m inc]]; apply: validateTabular_finiteTable.
Qed.

(** X5.  On a table of finite numbers with at least one node,
    [validatePointsToEvaluate] accepts the points exactly when there is at
    least one, all are finite and, if the range is required, all lie between
    the first and the last node (bounds included). *)
Theorem validatePointsToEvaluate_accepts x f X (requireInRange : bool) :
  (0 < size x)%N ->
  validatePointsToEvaluate (finiteTable x f) X requireInRange = Ok tt <->
  exists Xs : seq K,
    [/\ X = map Fin Xs, (0 < size Xs)%N
      & requireInRange -> all (inSpan x) Xs].
Proof.
move=> n0; split.
  move=> ok; have [Xs [eqX s0]] := validatePointsToEvaluate_Ok ok.
  exists Xs; split=> // req; move: ok.
  by rewrite eqX validatePointsToEvaluate_finite // req /=; case: all.
case=> Xs [-> s0 span]; rewrite validatePointsToEvaluate_finite //.
by case: requireInRange span => //= ->.
Qed.

(** X6.  In exact arithmetic, evaluated at the nodes of a valid table, both
    interpolation methods return the tabulated values. *)
Theorem interpolation_passes_through_nodes x f :
  isStrictlyIncreasing (map Fin x) -> size f = size x -> (2 <= size x)%N ->
  interpolateLagrange (finiteTable x f) (map Fin x)
  = Ok (InterpolationResult.mk (map Fin x) f)
  /\ interpolateNewton (finiteTable x f) (map Fin x)
     = Ok (InterpolationResult.mk (map Fin x) f).
Proof.
move=> inc eq_sz n2.
have Ux : uniq x by apply: sorted_lt_uniq; rewrite -isStrictlyIncreasing_sorted.
have n0 : (0 < size x)%N by apply: leq_trans n2.
rewrite interpolateNewton_Lagrange interpolateLagrange_finite //.
by rewrite lagrange_at_nodes.
Qed.

(** X7.  In exact arithmetic, on pairwise distinct nodes (so that no
    division is by zero) and values of the same number,
    [buildNewtonCoefficients] returns an array of the length of [x] whose
    element [k] is the divided difference [f[x0, ..., xk]]. *)
Theorem buildNewtonCoefficients_divided_differences x f :
  uniq x -> size f = size x ->
  size (buildNewtonCoefficients x f) = size x
  /\ forall k, (k < size x)%N ->
       nth 0 (buildNewtonCoefficients x f) k = dividedDifference x f 0 k.
Proof.
move=> _ eq_sz; rewrite buildNewtonCoefficientsE // size_mkseq; split=> // k lt_k.
by rewrite nth_mkseq.
Qed.

(** X8.  In exact arithmetic, for a coefficient array with one coefficient
    per node, the nested multiplication of [evaluateNewtonAtPoint] computes
    the Newton form
    [coef[0] + coef[1] (Xk - x0) + coef[2] (Xk - x0) (Xk - x1) + ...]. *)
Theorem evaluateNewtonAtPoint_newton_form x (coef : seq K) t :
  (0 < size x)%N -> size coef = size x ->
  evaluateNewtonAtPoint x coef t
  = \sum_(0 <= k < size x) nth 0 coef k * \prod_(0 <= j < k) (t - nth 0 x j).
Proof.
move=> n0 _; rewrite /evaluateNewtonAtPoint foldl_rev.
have := horner_nested x (nth 0 coef) t (size x - 1) 0.
by rewrite !add0n subn1 prednK // => ->; apply: eq_bigr => k _.
Qed.

(** X9.  In exact arithmetic, on pairwise distinct nodes (so that no
    division is by zero) and values of the same number, the triple loop of
    [computeLagrangeDerivativeAtPoint] computes the derivative of the
    function that [interpolateLagrangeAtPoint] computes: both are given by
    one polynomial of degree less than the number of nodes, evaluated
    respectively differentiated. *)
Theorem derivative_kernel_differentiates_interpolant x f :
  uniq x -> size f = size x ->
  exists P : {poly K},
    [/\ (size P <= size x)%N,
        forall t, interpolateLagrangeAtPoint x f t = P.[t]
      & forall t, computeLagrangeDerivativeAtPoint x f t = P^`().[t]].
Proof.
move=> _ _.
exists (lagrangePoly x f); split; first exact: size_lagrangePoly.
- by move=> t; rewrite horner_lagrangePoly.
- by move=> t; rewrite horner_deriv_lagrangePoly.
Qed.

(** X10.  In exact arithmetic, on samples of a polynomial [p] of degree at
    most four at the nodes [x0 + k h] of a uniform grid,
    [finiteDifference5AtIndex] returns the derivative of [p] at node [i],
    for every index [i] of the grid: each of the five formulas is exact. *)
Theorem finite_differences_exact_for_quartics p (x0 h : K) (n i : nat) :
  (size p <= 5)%N -> (5 <= n)%N -> (i < n)%N -> h != 0 ->
  finiteDifference5AtIndex [seq p.[t] | t <- uniformGrid x0 h n] i h
  = Ok p^`().[x0 + i%:R * h].
Proof. exact: finiteDifference5AtIndex_uniformGrid. Qed.

(** X11.  In exact arithmetic and for non-negative values of the two
    tolerance literals, on a uniform grid of at least five nodes with
    positive step, tabulating a polynomial [p] of degree at most four,
    [differentiateByApproximation5] evaluated at nodes of the grid returns
    the derivative of [p] at these nodes. *)
Theorem approximation5_exact_on_uniform_grid p (x0 h : K) (n : nat)
    (ks : seq nat) :
  0 <= gridTolerance :> K -> 0 <= nodeFactor :> K ->
  (size p <= 5)%N -> (5 <= n)%N -> 0 < h ->
  (0 < size ks)%N -> all (fun k => k < n)%N ks ->
  let x := uniformGrid x0 h n in
  let Xs := [seq nth 0 x k | k <- ks] in
  differentiateByApproximation5
    (finiteTable x [seq p.[t] | t <- x]) (map Fin Xs)
  = Ok (DerivativeResult.mk (map Fin Xs) [seq p^`().[t] | t <- Xs]).
Proof. exact: differentiateByApproximation5_uniformGrid. Qed.


(** X13.  In exact arithmetic and for non-negative values of the two
    tolerance literals, on a uniform grid tabulating a polynomial of degree
    at most four, compared at nodes of the grid, the two differentiation
    methods agree: every row of the summary holds the derivative of the
    polynomial twice and the difference 0, and the mean and the maximum
    are 0. *)
Theorem methods_agree_on_uniform_grid p (x0 h : K) (n : nat) (ks : seq nat) :
  0 <= gridTolerance :> K -> 0 <= nodeFactor :> K ->
  (size p <= 5)%N -> (5 <= n)%N -> 0 < h ->
  (0 < size ks)%N -> all (fun k => k < n)%N ks ->
  let x := uniformGrid x0 h n in
  let Xs := [seq nth 0 x k | k <- ks] in
  buildDifferentiationMethodsSummary
    (finiteTable x [seq p.[t] | t <- x]) (map Fin Xs)
  = DifferentiationMethodsSummary.mk
      [seq DifferentiationComparisonRow.mk (Fin t)
             (Some p^`().[t]) (Some p^`().[t]) (Some 0) | t <- Xs]
      (Some 0) (Some 0).
Proof.
move=> tol0 fac0 sz n5 h0 ks0 lt_ks x Xs.
set table := finiteTable _ _.
have Sx : sorted <%R x by apply: sorted_uniformGrid.
have sx : size x = n by rewrite size_uniformGrid.
have n5x : (5 <= size x)%N by rewrite sx.
have inc : isStrictlyIncreasing (map Fin x).
  by rewrite isStrictlyIncreasing_sorted.
have Xs0 : (0 < size Xs)%N by rewrite size_map.
have span : all (inSpan x) Xs.
  apply/allP => t /mapP [k k_in ->]; apply: node_inSpan => //.
  by rewrite sx (allP lt_ks).
have E1 := differentiateByInterpolation5_exact inc n5x sz Xs0 span.
have E2 : differentiateByApproximation5 table (map Fin Xs)
          = Ok (DerivativeResult.mk (map Fin Xs) [seq p^`().[t] | t <- Xs]).
  exact: differentiateByApproximation5_uniformGrid.
rewrite /buildDifferentiationMethodsSummary E1 E2 /=.
rewrite compareDerivatives_both /= ?size_map //.
have D0 i : `|nth 0 [seq p^`().[t] | t <- Xs] i
              - nth 0 [seq p^`().[t] | t <- Xs] i| = 0.
  by rewrite subrr normr0.
congr DifferentiationMethodsSummary.mk.
- rewrite -[RHS](map_nth_iota 0) size_map; apply/eq_in_map => i.
  rewrite mem_iota add0n /= => lt_i.
  have lt_iX : (i < size Xs)%N by rewrite size_map.
  by rewrite D0 (nth_map 0 _ _ lt_iX) (nth_map 0 _ _ lt_iX).
- by rewrite big1 ?mul0r.
- congr Some.
  have /mapP [i _ ->] :
      runningMax (fun i => `|nth 0 [seq p^`().[t] | t <- Xs] i
                            - nth 0 [seq p^`().[t] | t <- Xs] i|) 0
        (iota 0 (size ks))
      \in [seq `|nth 0 [seq p^`().[t] | t <- Xs] i
                 - nth 0 [seq p^`().[t] | t <- Xs] i|
             | i <- iota 0 (size ks)].
    by apply: runningMax0_mem => [i|]; rewrite ?normr_ge0 ?size_iota.
  exact: D0.
Qed.

(** X14.  In exact arithmetic the interpolation summary of a valid table
    reports no difference between the methods: every row holds the Lagrange
    value twice and the difference 0, and the mean and the maximum are 0. *)
Theorem interpolation_summary_zero_differences x f (Xs : seq K) :
  size f = size x -> (2 <= size x)%N -> isStrictlyIncreasing (map Fin x) ->
  (0 < size Xs)%N ->
  let L := interpolateLagrangeAtPoint x f in
  buildInterpolationMethodsSummary (finiteTable x f) (map Fin Xs)
  = Ok (InterpolationMethodsSummary.mk
          [seq InterpolationComparisonRow.mk (Fin t) (L t) (L t) 0 | t <- Xs]
          0 0).
Proof.
move=> sf n2 inc X0 L.
have Ux : uniq x by apply: sorted_lt_uniq; rewrite -isStrictlyIncreasing_sorted.
have n0 : (0 < size x)%N by apply: leq_trans n2.
have [M [-> M_in _]] := buildInterpolationMethodsSummary_finite sf n2 inc X0.
have NL t : evaluateNewtonAtPoint x (buildNewtonCoefficients x f) t = L t.
  exact: newton_lagrange_atPoint.
have D0 t :
    `|L t - evaluateNewtonAtPoint x (buildNewtonCoefficients x f) t| = 0.
  by rewrite NL subrr normr0.
congr (Ok (InterpolationMethodsSummary.mk _ _ _)).
- by apply/eq_in_map => t _; rewrite D0 NL.
- by rewrite big1 ?mul0r.
- by case/mapP: M_in => t _ ->.
Qed.

(** X15.  Whatever the input, the interpolation entry points fail only with
    a message of [validateTabular] or with the "empty" or "invalid value"
    message of [validatePointsToEvaluate]; the interpolation-based
    derivative may in addition report a point out of range, and the
    finite-difference derivative a non-uniform grid or a point that is not a
    node.  The guards of [findNearestIndex], [get5PointStencilIndices],
    [finiteDifference5AtIndex] and [validateMinPointsForMethod] never
    fire. *)
Theorem entry_point_failures table X :
  [/\ failsOnlyWith interpolationMessage (interpolateLagrange table X),
      failsOnlyWith interpolationMessage (interpolateNewton table X),
      failsOnlyWith interpolation5Message
        (differentiateByInterpolation5 table X)
    & failsOnlyWith approximation5Message
        (differentiateByApproximation5 table X)].
Proof.
split.
- exact: interpolateLagrange_failure.
- by rewrite interpolateNewton_Lagrange; apply: interpolateLagrange_failure.
- exact: differentiateByInterpolation5_failure.
- exact: differentiateByApproximation5_failure.
Qed.

(** X16.  [interpolate] and [differentiate] fail with
    [MethodNotSupportedError] exactly when the method name is none of the
    two names they dispatch on. *)
Theorem unsupported_method (method : string) table X :
  (interpolate method table X = Err MethodNotSupportedError
   <-> method <> "lagrange"%string /\ method <> "newton"%string)
  /\ (differentiate method table X = Err MethodNotSupportedError
      <-> method <> "interpolation5"%string
          /\ method <> "approximation5"%string).
Proof.
split; rewrite /interpolate /differentiate.
- case: (String.eqb_spec method "lagrange") => [->|ne1].
    split; last by case.
    by move/(not_unsupported (interpolateLagrange_failure table X)).
  case: (String.eqb_spec method "newton") => [->|ne2]; last by [].
  split; last by case=> _.
  rewrite interpolateNewton_Lagrange.
  by move/(not_unsupported (interpolateLagrange_failure table X)).
- case: (String.eqb_spec method "interpolation5") => [->|ne1].
    split; last by case.
    by move/(not_unsupported (differentiateByInterpolation5_failure table X)).
  case: (String.eqb_spec method "approximation5") => [->|ne2]; last by [].
  split; last by case=> _.
  by move/(not_unsupported (differentiateByApproximation5_failure table X)).
Qed.

(** X17.  The raw dispatchers return the value array of the result that the
    structured dispatchers return for the table made of [x] and [f], and
    fail as they do. *)
Theorem raw_entry_points (method : string) (x f X : seq (number K)) :
  interpolateRaw method x f X
  = (do r <- interpolate method (TabularFunction.mk x f) X;
     Ok (InterpolationResult.F r))
  /\ differentiateRaw method x f X
     = (do r <- differentiate method (TabularFunction.mk x f) X;
        Ok (DerivativeResult.Fd r)).
Proof.
rewrite /interpolateRaw /interpolate /differentiateRaw /differentiate.
by split; do 2![case: String.eqb => //].
Qed.

(** X18.  On a valid table of exactly five nodes the stencil is the whole
    table: [differentiateByInterpolation5] returns at every in-range point
    the derivative of the Lagrange polynomial of all the nodes. *)
Theorem interpolation5_five_nodes x f (Xs : seq K) :
  isStrictlyIncreasing (map Fin x) -> size f = size x -> size x = 5%N ->
  (0 < size Xs)%N -> all (inSpan x) Xs ->
  differentiateByInterpolation5 (finiteTable x f) (map Fin Xs)
  = Ok (DerivativeResult.mk (map Fin Xs)
          [seq computeLagrangeDerivativeAtPoint x f t | t <- Xs]).
Proof.
move=> inc sf sx X0 span.
have n5 : (5 <= size x)%N by rewrite sx.
have Sx : sorted <%R x by rewrite -isStrictlyIncreasing_sorted.
rewrite /differentiateByInterpolation5 validateTabular_finiteTable //=.
rewrite /validateMinPointsForMethod /= size_map ltnNge n5 /=.
rewrite validatePointsToEvaluate_finite ?span ?(leq_trans _ n5) //=.
rewrite !map_value_of.
have E (y : seq K) : size y = 5%N -> [seq nth 0 y i | i <- iota 0 5] = y.
  by move=> sy; rewrite -{1}sy (map_nth_iota 0 id) map_id.
have body (Xk : number K) :
    (do indices <- get5PointStencilIndices x (value_of Xk);
     Ok (computeLagrangeDerivativeAtPoint (pick x indices) (pick f indices)
           (value_of Xk)))
    = Ok (computeLagrangeDerivativeAtPoint x f (value_of Xk)).
  have [s [le_s ->]] := get5PointStencilIndices_nat (value_of Xk) n5.
  have s0 : s = 0%N by rewrite sx in le_s; nat_lia.
  by rewrite /bind !pick_nat s0 !E ?sf.
rewrite (forEach_Ok _ body) /= -map_comp.
by congr (Ok (DerivativeResult.mk _ _)); apply: eq_map => t.
Qed.

(** X19.  The inputs accepted by the methods are nested: an input on which
    [differentiateByApproximation5] succeeds is one on which
    [differentiateByInterpolation5] succeeds, and such an input is one on
    which both interpolation methods succeed. *)
Theorem accepted_inputs_nest table X :
  (isOk (differentiateByApproximation5 table X) ->
   isOk (differentiateByInterpolation5 table X))
  /\ (isOk (differentiateByInterpolation5 table X) ->
      isOk (interpolateLagrange table X) /\ isOk (interpolateNewton table X)).
Proof.
split.
  case E: differentiateByApproximation5 => [r|] // _.
  exact: approximation5_Ok_interpolation5_Ok E.
rewrite interpolateNewton_Lagrange.
rewrite /differentiateByInterpolation5 /interpolateLagrange.
case E: validateTabular => [[]|] //=.
have [x [f [-> sf n5 Sx]]] := validateTabular_Ok E.
have n2 : (2 <= size x)%N by apply: leq_trans n5.
rewrite validateTabular_finiteTable //=.
case: validateMinPointsForMethod => [[]|] //=.
case E2: validatePointsToEvaluate => [[]|] //= _.
have [Xs [-> X0]] := validatePointsToEvaluate_Ok E2.
by rewrite validatePointsToEvaluate_finite // (leq_trans _ n2).
Qed.

(** X20.  Every result of the four methods carries the points it was given,
    unchanged, and one value per point. *)
Theorem results_parallel_to_points table X :
  [/\ forall r, interpolateLagrange table X = Ok r ->
        InterpolationResult.X r = X /\ size (InterpolationResult.F r) = size X,
      forall r, interpolateNewton table X = Ok r ->
        InterpolationResult.X r = X /\ size (InterpolationResult.F r) = size X,
      forall r, differentiateByInterpolation5 table X = Ok r ->
        DerivativeResult.X r = X /\ size (DerivativeResult.Fd r) = size X
    & forall r, differentiateByApproximation5 table X = Ok r ->
        DerivativeResult.X r = X /\ size (DerivativeResult.Fd r) = size X].
Proof.
have HL r : interpolateLagrange table X = Ok r ->
    InterpolationResult.X r = X /\ size (InterpolationResult.F r) = size X.
  rewrite /interpolateLagrange.
  case: validateTabular => [[]|] //=.
  case: validatePointsToEvaluate => [[]|] //=.
  by case=> <- /=; rewrite size_map.
split=> // r.
- by rewrite interpolateNewton_Lagrange; apply: HL.
- exact: differentiateByInterpolation5_Ok.
- exact: differentiateByApproximation5_Ok.
Qed.

(** X28.  On a valid table with at least five nodes,
    [differentiateByInterpolation5] returns at every in-range point [t] the
    value of [computeLagrangeDerivativeAtPoint] on five consecutive nodes:
    those from index [min (nearest - 2, n - 5)] on (the difference cut off
    at 0), where [nearest] is the index that [findNearestIndex] gives for
    [t].  In exact arithmetic this value is the derivative at [t] of the
    Lagrange polynomial of these five nodes. *)
Theorem interpolation5_local_polynomial x f (Xs : seq K) :
  isStrictlyIncreasing (map Fin x) -> size f = size x -> (5 <= size x)%N ->
  (0 < size Xs)%N -> all (inSpan x) Xs ->
  let nodes t := stencilWindow x (stencilStart x t) in
  let values t := stencilWindow f (stencilStart x t) in
  differentiateByInterpolation5 (finiteTable x f) (map Fin Xs)
  = Ok (DerivativeResult.mk (map Fin Xs)
          [seq computeLagrangeDerivativeAtPoint (nodes t) (values t) t
             | t <- Xs])
  /\ forall t, computeLagrangeDerivativeAtPoint (nodes t) (values t) t
               = (lagrangePoly (nodes t) (values t))^`().[t].
Proof.
move=> inc sf n5 X0 span nodes values.
split; last by move=> t; rewrite horner_deriv_lagrangePoly.
have Sx : sorted <%R x by rewrite -isStrictlyIncreasing_sorted.
have n0 : (0 < size x)%N by apply: leq_trans n5.
rewrite /differentiateByInterpolation5 validateTabular_finiteTable //=.
rewrite /validateMinPointsForMethod /= size_map ltnNge n5 /=.
rewrite validatePointsToEvaluate_finite // span /= !map_value_of.
have body (Xk : number K) :
    (do indices <- get5PointStencilIndices x (value_of Xk);
     Ok (computeLagrangeDerivativeAtPoint (pick x indices) (pick f indices)
           (value_of Xk)))
    = Ok (computeLagrangeDerivativeAtPoint
            (nodes (value_of Xk)) (values (value_of Xk)) (value_of Xk)).
  have [_ ->] := get5PointStencilIndices_start (value_of Xk) n5.
  by rewrite /bind !pick_nat.
rewrite (forEach_Ok _ body) /= -map_comp.
by congr (Ok (DerivativeResult.mk _ _)); apply: eq_map => t.
Qed.

(** X29.  [differentiateByApproximation5] differentiates at the nearest
    node, not at the point: in exact arithmetic and for a non-negative value
    of the grid tolerance literal, on a uniform grid tabulating a polynomial
    [p] of degree at most four, for in-range points that each have a node
    within the node tolerance, it returns the derivative of [p] at the node
    that [findNearestIndex] selects. *)
Theorem approximation5_uses_nearest_node p (x0 h : K) (n : nat)
    (Xs : seq K) :
  0 <= gridTolerance :> K ->
  (size p <= 5)%N -> (5 <= n)%N -> 0 < h -> (0 < size Xs)%N ->
  let x := uniformGrid x0 h n in
  all (inSpan x) Xs -> all (fun t => ~~ farFromNodes x h t) Xs ->
  differentiateByApproximation5
    (finiteTable x [seq p.[t] | t <- x]) (map Fin Xs)
  = Ok (DerivativeResult.mk (map Fin Xs)
          [seq p^`().[nearestNode x t] | t <- Xs]).
Proof.
move=> tol0 sz n5 h0 Xs0 x span near.
have Sx : sorted <%R x by apply: sorted_uniformGrid.
have sx : size x = n by rewrite size_uniformGrid.
have n2 : (2 <= n)%N by apply: leq_trans n5.
have n0 : (0 < size x)%N by rewrite sx (leq_trans _ n5).
have sf : size [seq p.[t] | t <- x] = size x by rewrite size_map.
have n5x : (5 <= size x)%N by rewrite sx.
have inc : isStrictlyIncreasing (map Fin x).
  by rewrite isStrictlyIncreasing_sorted.
rewrite (differentiateByApproximation5_finite sf n5x inc Xs0 span).
rewrite uniformGrid_uniform // meanSpacing_uniformGrid //.
have -> : has (farFromNodes x h) Xs = false.
  by apply/negbTE; rewrite -all_predC.
congr (Ok (DerivativeResult.mk _ _)); apply: eq_map => t.
rewrite /approximationAt /nearestNode.
have [i [-> lt_i _ _]] := findNearestIndex_first t n0.
have lt_in : (i < n)%N by rewrite -sx.
have nz : h != 0 by rewrite gt_eqF.
by rewrite /x (finiteDifference5AtIndex_uniformGrid x0 sz n5 lt_in nz)
  nth_uniformGrid.
Qed.

(** X30.  On a table that [validateTabular] accepts, a step returned by
    [getApproximateStep] is positive, so the zero-step test of
    [differentiateByApproximation5] never fires: the method reports a
    non-uniform grid only when the table is valid and [getApproximateStep]
    returns [null]. *)
Theorem validated_grid_has_positive_step table X :
  (forall tolerance h,
     validateTabular table 2 = Ok tt ->
     getApproximateStep (map (@value_of K) (TabularFunction.x table)) tolerance
     = Some h ->
     0 < h)
  /\ (differentiateByApproximation5 table X
      = Err (TabularDataError NotUniform) ->
      validateTabular table 5 = Ok tt
      /\ getApproximateStep (map (@value_of K) (TabularFunction.x table))
           gridTolerance = None).
Proof.
split.
  move=> tolerance h /validateTabular_Ok [x [f [-> sf n2 Sx]]] /=.
  rewrite map_value_of getApproximateStepE ltnNge n2 /=.
  by case: ifP => // _ [<-]; apply: meanSpacing_gt0.
rewrite /differentiateByApproximation5.
case E: validateTabular => [[]|e] /=; last first.
  move=> [Ee]; have := validateTabular_failure table 5.
  by rewrite E Ee.
have [x [f [Et sf n5 Sx]]] := validateTabular_Ok E.
rewrite Et /validateMinPointsForMethod /= size_map ltnNge n5 /= !map_value_of.
have n2 : (2 <= size x)%N by apply: leq_trans n5.
rewrite getApproximateStepE ltnNge n2 /=; case: ifP => // _.
rewrite normr_eq0 gt_eqF ?meanSpacing_gt0 //.
case Ev: validatePointsToEvaluate => [[]|e] /=; last first.
  move=> [Ee].
  have := validatePointsToEvaluate_failure (finiteTable x f) X true.
  by rewrite Ev Ee.
have Hbody (Xk : number K) :=
  approximation_body (literals := literals) (meanSpacing x) (value_of Xk)
    n5 sf.
by rewrite (forEach_cond _ Hbody); case: ifP.
Qed.

End FurtherProperties.

(** * Properties of the file reader *)

Lemma isLetter_notWhiteSpace (c : N) : isLetter c -> ~~ isWhiteSpace c.
Proof.
rewrite /isLetter /isWhiteSpace !inE.
case/orP=> /andP [/N.leb_spec0 H1 /N.leb_spec0 H2];
  (rewrite !negb_or; apply/andP; split;
   [ do ![apply/andP; split]; apply/eqP; lia
   | apply/negP => /andP [/N.leb_spec0 H3 _]; lia ]).
Qed.

Lemma filter_trimStart (P : pred N) (s : seq N) :
  (forall c, P c -> ~~ isWhiteSpace c) ->
  filter P (trimStart s) = filter P s.
Proof.
move=> HP; rewrite /trimStart; elim: s => [|c s IH] //=.
case: ifP => [nws|ws]; first by rewrite drop0.
rewrite IH; case: ifP => // /HP; by rewrite -[isWhiteSpace c]negbK ws.
Qed.

Lemma filter_trim (P : pred N) (s : seq N) :
  (forall c, P c -> ~~ isWhiteSpace c) -> filter P (trim s) = filter P s.
Proof.
by move=> HP; rewrite /trim filter_rev filter_trimStart // filter_rev revK
  filter_trimStart.
Qed.

Lemma detectRowLabel_filter (s : seq N) :
  detectRowLabel s
  = let lettersOnly := filter isLetter s in
    if lettersOnly == [:: 120]%binN then Parsed Row_x
    else if lettersOnly == [:: 88]%binN then Parsed Row_X
    else if [|| lettersOnly == [:: 102]%binN,
                lettersOnly == [:: 102; 120]%binN
              | lettersOnly == [:: 70; 120]%binN]
    then Parsed Row_f
    else Rejected UnknownLabel.
Proof.
by rewrite /detectRowLabel (filter_trim _ isLetter_notWhiteSpace).
Qed.

Lemma mapParsed_all (A B : Type) (body : A -> fileResult B) (P : pred B)
    (s : seq A) (bs : seq B) :
  (forall a b, body a = Parsed b -> P b) ->
  mapParsed body s = Parsed bs -> size bs = size s /\ all P bs.
Proof.
move=> HP; elim: s bs => [|a s IH] bs /=; first by case=> <-.
case Ea: (body a) => [b|] //=; case Es: (mapParsed body s) => [bs'|] //=.
by case=> <- /=; have [-> ->] := IH _ Es; rewrite (HP _ _ Ea).
Qed.

Lemma mapParsed_size (A B : Type) (body : A -> fileResult B)
    (s : seq A) (bs : seq B) :
  mapParsed body s = Parsed bs -> size bs = size s.
Proof.
move=> E.
by have [] := @mapParsed_all _ _ body xpredT s bs (fun _ _ _ => isT) E.
Qed.

Lemma mapParsed_message (A B : Type) (body : A -> fileResult B)
    (P : pred fileMessage) (s : seq A) m :
  (forall a m', body a = Rejected m' -> P m') ->
  mapParsed body s = Rejected m -> P m.
Proof.
move=> HP; elim: s => [|a s IH] //=.
case Ea: (body a) => [b|m'] /=; last by case=> <-; apply: HP Ea.
by case: (mapParsed body s) IH => [bs|m''] //= IH [<-]; apply: IH.
Qed.

Lemma splitLinesFrom_one_line (s cur : seq N) :
  10%binN \notin s -> splitLinesFrom s cur = [:: rev cur ++ s].
Proof.
elim: s cur => [|c s IH] cur /=; first by rewrite cats0.
rewrite inE negb_or eq_sym => /andP [/negbTE -> /IH ->].
by rewrite rev_cons cat_rcons.
Qed.

Section FileParsingProperties.

Variable K : realFieldType.
Variable Number : seq N -> number K.

Notation slots := (option (seq (number K)) * option (seq (number K))
                   * option (seq (number K)))%type.

Lemma parseNumberToken_finite (token : seq N) (v : number K) :
  parseNumberToken Number token = Parsed v -> isFinite v.
Proof.
rewrite /parseNumberToken; case: ifP => // _.
by case: ifP => // /negbFE fin [<-].
Qed.

Lemma parseLabeledRow_Parsed (line : seq N) label values :
  parseLabeledRow Number line = Parsed (label, values) ->
  (0 < size values)%N /\ all (@isFinite K) values.
Proof.
rewrite /parseLabeledRow; case: ifP => // _; case: ifP => // _.
case: detectRowLabel => [l|] //=.
case E: mapParsed => [vs|] //=; case: ifP => // nz [_ <-].
have [_ fin] := mapParsed_all (@parseNumberToken_finite) E.
by rewrite lt0n nz.
Qed.

Lemma parseLabeledRow_NoValues (line : seq N) :
  parseLabeledRow Number line <> Rejected NoValues.
Proof.
rewrite /parseLabeledRow; case: ifP => // _; case: ifP => // /negbT.
rewrite -leqNgt => sz.
have: detectRowLabel (head [::] (splitWhiteSpace (trim line)))
      <> Rejected NoValues.
  by rewrite /detectRowLabel; do ![case: ifP => _ //].
case: detectRowLabel => [l|m] /=; last by move=> H [E]; apply: H; rewrite E.
move=> _; case E: mapParsed => [vs|m] /=.
  have := mapParsed_size E; rewrite size_behead => sv.
  by case: ifP => //; rewrite sv -subn1 subn_eq0 leqNgt sz.
move=> [Em]; move: E; rewrite Em => E.
pose P m := if m is NoValues then false else true.
have HP a m' : parseNumberToken Number a = Rejected m' -> P m'.
  rewrite /parseNumberToken.
  by case: ifP => [_ [<-]|_] //; case: ifP => // _ [<-].
by have := mapParsed_message HP E.
Qed.

(** The loop: what the three variables hold when it ends. *)
Lemma readRows_slots (lines : seq (seq N)) (st st' : slots) :
  readRows Number lines st.1.1 st.1.2 st.2 = Parsed st' ->
  [/\ forall label,
        (count (hasLabel Number label) lines + filled (slot st label))%N
        = filled (slot st' label),
      forall label v, slot st label = Some v -> slot st' label = Some v
    & forall line, line \in lines -> size (trim line) != 0%N ->
        exists label values,
          parseLabeledRow Number (trim line) = Parsed (label, values)
          /\ slot st' label = Some values].
Proof.
elim: lines st => [|line lines IH] [[sx sf] sX] /=.
  by case=> <-; split=> // label; rewrite add0n.
rewrite /hasLabel; case: ifP => [/eqP blank|nonblank] /=.
  move=> /(IH (sx, sf, sX)) [H1 H2 H3]; split=> // l.
  rewrite inE => /orP [/eqP ->|]; first by rewrite blank.
  exact: H3.
case E: parseLabeledRow => [[label values]|] //=.
have step (st1 : slots) :
    (forall l, (sameLabel l label + filled (slot (sx, sf, sX) l))%N
               = filled (slot st1 l)) ->
    (forall l v, slot (sx, sf, sX) l = Some v -> slot st1 l = Some v) ->
    slot st1 label = Some values ->
    readRows Number lines st1.1.1 st1.1.2 st1.2 = Parsed st' ->
    [/\ forall label0,
          ((sameLabel label0 label
            + count (hasLabel Number label0) lines)
           + filled (slot (sx, sf, sX) label0))%N
          = filled (slot st' label0),
        forall label0 v, slot (sx, sf, sX) label0 = Some v ->
          slot st' label0 = Some v
      & forall line0, line0 \in line :: lines ->
          size (trim line0) != 0%N ->
          exists label0 values0,
            parseLabeledRow Number (trim line0) = Parsed (label0, values0)
            /\ slot st' label0 = Some values0].
  move=> C1 C2 C3 /IH [H1 H2 H3]; split.
  - by move=> l; rewrite addnAC C1 addnC H1.
  - by move=> l v /C2; apply: H2.
  - move=> l; rewrite inE => /orP [/eqP -> _|]; last exact: H3.
    by exists label, values; split=> //; apply: H2.
case: label E step => E step /=.
- case: sx step => [v|] step //.
  by apply: (step (Some values, sf, sX)) => // [[]|[]].
- case: sf step => [v|] step //.
  by apply: (step (sx, Some values, sX)) => // [[]|[]].
- case: sX step => [v|] step //.
  by apply: (step (sx, sf, Some values)) => // [[]|[]].
Qed.

Lemma readRows_values (lines : seq (seq N)) (st st' : slots)
    (good : pred (seq (number K))) :
  (forall line label values,
     parseLabeledRow Number line = Parsed (label, values) -> good values) ->
  (forall label v, slot st label = Some v -> good v) ->
  readRows Number lines st.1.1 st.1.2 st.2 = Parsed st' ->
  forall label v, slot st' label = Some v -> good v.
Proof.
move=> Hrow; elim: lines st => [|line lines IH] [[sx sf] sX] /= Hst.
  by case=> <-.
case: ifP => _; first exact: (IH (sx, sf, sX)).
case E: parseLabeledRow => [[label values]|] //=.
have Hv := Hrow _ _ _ E.
case: label {E} => /=.
- case: sx Hst => [v|] // Hst; apply: (IH (Some values, sf, sX)).
  by case=> [v [<-]|v|v] //; [apply: (Hst Row_f) | apply: (Hst Row_X)].
- case: sf Hst => [v|] // Hst; apply: (IH (sx, Some values, sX)).
  by case=> [v|v [<-]|v] //; [apply: (Hst Row_x) | apply: (Hst Row_X)].
- case: sX Hst => [v|] // Hst; apply: (IH (sx, sf, Some values)).
  by case=> [v|v|v [<-]] //; [apply: (Hst Row_x) | apply: (Hst Row_f)].
Qed.

Lemma readRows_blank (lines : seq (seq N)) sx sf sX :
  readRows Number [seq l <- lines | size (trim l) != 0%N] sx sf sX
  = readRows Number lines sx sf sX.
Proof.
elim: lines sx sf sX => [|line lines IH] sx sf sX //=.
case E: (size (trim line) == 0%N) => /=; first exact: IH.
rewrite E; case: parseLabeledRow => [[label values]|] //=.
by case: label; [case: sx | case: sf | case: sX].
Qed.

Lemma readRows_Permutation (l l' : seq (seq N)) :
  Permutation l l' ->
  forall sx sf sX st,
    readRows Number l sx sf sX = Parsed st ->
    readRows Number l' sx sf sX = Parsed st.
Proof.
elim=> {l l'} [|a l l' _ IH|a b l|l1 l2 l3 _ IH1 _ IH2] // sx sf sX st.
- move=> /=; case: ifP => _; first exact: IH.
  case: parseLabeledRow => [[label values]|] //=.
  by case: label; [case: sx | case: sf | case: sX]; rewrite //; apply: IH.
- move=> /=.
  case: (size (trim a) == 0%N); case: (size (trim b) == 0%N) => //=.
  case: (parseLabeledRow Number (trim a)) => [[la va]|ma];
    case: (parseLabeledRow Number (trim b)) => [[lb vb]|mb] //=.
    by case: la; case: lb; case: sx => [?|]; case: sf => [?|];
      case: sX => [?|].
  by case: lb; [case: sx | case: sf | case: sX].
- by move=> /IH1; apply: IH2.
Qed.

Lemma parseLines_Parsed (lines : seq (seq N)) (r : ParsedTabularFile.t K) :
  parseLines Number lines = Parsed r ->
  exists x f oX,
    readRows Number lines None None None = Parsed (Some x, Some f, oX)
    /\ r = ParsedTabularFile.mk (TabularFunction.mk x f)
             (if oX is Some v then v else [::]).
Proof.
rewrite /parseLines; case: readRows => [[[[x|] [f|]] oX]|] //= [<-].
by exists x, f, oX.
Qed.

Lemma validateTabular_finite_failure (x f : seq K) (m : nat) :
  failsOnlyWith shapeMessage (validateTabular (finiteTable x f) m).
Proof.
rewrite /validateTabular /= !size_map.
case: ifP => // /negbFE /eqP sz; do 2![case: ifP => _ //].
case: ifP => // /hasP [i]; rewrite mem_iota add0n /= => lt_i.
by rewrite !(nth_map 0) // -sz.
Qed.

(** X21.  A row label is read by its ASCII letters alone: two labels with
    the same letters in the same order are classified alike, and a label is
    accepted exactly when its letters spell x, X, f, fx or Fx. *)
Theorem labels_read_by_letters (s : seq N) :
  (forall s', filter isLetter s = filter isLetter s' ->
              detectRowLabel s = detectRowLabel s')
  /\ isParsed (detectRowLabel s)
     = (filter isLetter s
          \in [seq codeUnits w | w <- [:: "x"; "X"; "f"; "fx"; "Fx"]%string]).
Proof.
split; first by move=> s' E; rewrite !detectRowLabel_filter /= E.
rewrite detectRowLabel_filter /= !inE.
do 2![case: (_ == _) => //=].
by case: [|| _, _ | _].
Qed.

(** X22.  A row that [parseLabeledRow] accepts has at least one value and
    only finite values; the final test for an empty list of values never
    fires. *)
Theorem parseLabeledRow_values (line : seq N) :
  parseLabeledRow Number line <> Rejected NoValues
  /\ forall label values,
       parseLabeledRow Number line = Parsed (label, values) ->
       (0 < size values)%N /\ all (@isFinite K) values.
Proof.
split; first exact: parseLabeledRow_NoValues.
by move=> label values; apply: parseLabeledRow_Parsed.
Qed.

(** X23.  When a file is accepted, exactly one of its non-blank lines is an
    x row, exactly one is an f row and at most one is an X row; every
    non-blank line is a well-formed row whose values are the array of the
    result for its label; without an X row the points are the empty
    array. *)
Theorem parseLines_rows (lines : seq (seq N)) (r : ParsedTabularFile.t K) :
  parseLines Number lines = Parsed r ->
  [/\ count (hasLabel Number Row_x) lines = 1%N,
      count (hasLabel Number Row_f) lines = 1%N,
      (count (hasLabel Number Row_X) lines <= 1)%N,
      count (hasLabel Number Row_X) lines = 0%N -> ParsedTabularFile.X r = [::]
    & forall line, line \in lines -> size (trim line) != 0%N ->
        exists label values,
          parseLabeledRow Number (trim line) = Parsed (label, values)
          /\ rowValues r label = values].
Proof.
move=> /parseLines_Parsed [x [f [oX [E ->]]]].
have [H1 _ H3] := @readRows_slots lines (None, None, None) _ E.
split.
- by rewrite -[LHS]addn0; apply: (H1 Row_x).
- by rewrite -[LHS]addn0; apply: (H1 Row_f).
- by rewrite -[count _ _]addn0 (H1 Row_X) /=; case: oX {E H1 H3}.
- by move=> c0; have := H1 Row_X; rewrite c0 /=; case: oX {E H1 H3}.
- move=> line line_in nonblank.
  have [label [values [Ep Es]]] := H3 line line_in nonblank.
  exists label, values; split=> //.
  by case: label Es {Ep} => /= [[]|[]|->].
Qed.

(** X24.  The rows may come in any order: a file that is accepted is
    accepted, with the same result, after any permutation of its lines. *)
Theorem parseLines_any_order (lines lines' : seq (seq N))
    (r : ParsedTabularFile.t K) :
  Permutation lines lines' ->
  parseLines Number lines = Parsed r -> parseLines Number lines' = Parsed r.
Proof.
move=> perm /parseLines_Parsed [x [f [oX [E ->]]]].
by rewrite /parseLines (readRows_Permutation perm E).
Qed.

(** X25.  Blank lines are ignored: removing the lines that are empty after
    trimming changes neither the result nor the error. *)
Theorem parseLines_skips_blank_lines (lines : seq (seq N)) :
  parseLines Number [seq l <- lines | size (trim l) != 0%N]
  = parseLines Number lines.
Proof. by rewrite /parseLines readRows_blank. Qed.

(** X26.  An accepted file holds finite numbers only and non-empty arrays x
    and f, so [validateTabular] can reject its table only for its shape:
    unequal lengths, too few points, or nodes that do not increase. *)
Theorem parsed_file_is_finite (lines : seq (seq N))
    (r : ParsedTabularFile.t K) :
  parseLines Number lines = Parsed r ->
  (exists (x f Xs : seq K),
     [/\ r = ParsedTabularFile.mk (finiteTable x f) (map Fin Xs),
         (0 < size x)%N & (0 < size f)%N])
  /\ forall minPoints,
       failsOnlyWith shapeMessage
         (validateTabular (ParsedTabularFile.table r) minPoints).
Proof.
move=> /parseLines_Parsed [x [f [oX [E ->]]]].
pose good (v : seq (number K)) := (0 < size v)%N && all (@isFinite K) v.
have Hrow line label values :
    parseLabeledRow Number line = Parsed (label, values) -> good values.
  by move=> /parseLabeledRow_Parsed [s0 fin]; rewrite /good s0.
have Hst label v : slot (None, None, None) label = Some v -> good v.
  by case: label.
have G := @readRows_values lines (None, None, None) _ good Hrow Hst E.
have /andP [x0 /all_finiteP ex] := G Row_x x (erefl _).
have /andP [f0 /all_finiteP ef] := G Row_f f (erefl _).
have eX : all (@isFinite K) (if oX is Some v then v else [::]).
  by case: oX {E} G => [v|] // G; have /andP [] := G Row_X v (erefl _).
split; last first.
  by move=> m /=; rewrite ex ef; apply: validateTabular_finite_failure.
exists (map (@value_of K) x), (map (@value_of K) f),
       (map (@value_of K) (if oX is Some v then v else [::])).
rewrite !size_map; split=> //.
by rewrite /finiteTable -ex -ef -(all_finiteP eX).
Qed.

(** X27.  A file without a line feed is one line, which cannot hold both an
    x row and an f row: it is always rejected.  The empty file is the
    simplest case. *)
Theorem one_line_file_is_rejected (content : seq N) :
  10%binN \notin content -> ~~ isParsed (parseTabularFile Number content).
Proof.
move=> no_lf; rewrite /parseTabularFile /splitLines.
rewrite (splitLinesFrom_one_line _ no_lf) /= /parseLines /=.
case: ifP => // _.
by case: parseLabeledRow => [[[] values]|].
Qed.

End FileParsingProperties.

(** ** Instances of the further properties on the sample data *)

Lemma size_gridNodes_samples :
  size [seq quarticPoly.[t] | t <- gridNodes] = size gridNodes.
Proof. by rewrite size_map. Qed.

Lemma decimal_gridTolerance_ge0 : 0 <= gridTolerance :> rat.
Proof. by vm_compute. Qed.

Lemma decimal_nodeFactor_ge0 : 0 <= nodeFactor :> rat.
Proof. by vm_compute. Qed.

Lemma nearest_index_first_minimum_witness :
  (0 < size quarticNodes)%N
  /\ exists i,
       [/\ findNearestIndex quarticNodes (1 / 2%:R) = Ok i,
           (i < size quarticNodes)%N,
           forall j, (j < size quarticNodes)%N ->
             `|nth 0 quarticNodes i - 1 / 2%:R|
             <= `|nth 0 quarticNodes j - 1 / 2%:R|
         & forall j, (j < i)%N ->
             `|nth 0 quarticNodes i - 1 / 2%:R|
             < `|nth 0 quarticNodes j - 1 / 2%:R|].
Proof.
have H1 : (0 < size quarticNodes)%N by reflexivity.
split; [exact: H1 |].
exact: (nearest_index_first_minimum (1 / 2%:R) H1).
Defined.

Lemma nearest_index_of_node_witness :
  [/\ uniq quarticNodes, (3 < size quarticNodes)%N
    & findNearestIndex quarticNodes (nth 0 quarticNodes 3) = Ok 3%N].
Proof.
have H1 : uniq quarticNodes by vm_compute.
have H2 : (3 < size quarticNodes)%N by reflexivity.
split; [exact: H1 | exact: H2 |].
exact: (nearest_index_of_node H1 H2).
Defined.

Lemma validatePointsToEvaluate_accepts_witness :
  (0 < size quarticNodes)%N
  /\ (validatePointsToEvaluate (finiteTable quarticNodes quarticValues)
        (map Fin midPoints) true = Ok tt
      <-> exists Xs : seq rat,
            [/\ map Fin midPoints = map Fin Xs, (0 < size Xs)%N
              & true -> all (inSpan quarticNodes) Xs]).
Proof.
have H1 : (0 < size quarticNodes)%N by reflexivity.
split; [exact: H1 |].
exact: (validatePointsToEvaluate_accepts quarticValues (map Fin midPoints)
          true H1).
Defined.

Lemma interpolation_passes_through_nodes_witness :
  [/\ isStrictlyIncreasing (map Fin quadraticNodes),
      size quadraticValues = size quadraticNodes,
      (2 <= size quadraticNodes)%N
    & interpolateLagrange (finiteTable quadraticNodes quadraticValues)
        (map Fin quadraticNodes)
      = Ok (InterpolationResult.mk (map Fin quadraticNodes) quadraticValues)
      /\ interpolateNewton (finiteTable quadraticNodes quadraticValues)
           (map Fin quadraticNodes)
         = Ok (InterpolationResult.mk (map Fin quadraticNodes)
                 quadraticValues)].
Proof.
have H1 : isStrictlyIncreasing (map Fin quadraticNodes) by vm_compute.
have H2 : size quadraticValues = size quadraticNodes by reflexivity.
have H3 : (2 <= size quadraticNodes)%N by reflexivity.
split; [exact: H1 | exact: H2 | exact: H3 |].
exact: (interpolation_passes_through_nodes H1 H2 H3).
Defined.

Lemma buildNewtonCoefficients_divided_differences_witness :
  [/\ uniq quadraticNodes, size quadraticValues = size quadraticNodes
    & size (buildNewtonCoefficients quadraticNodes quadraticValues)
      = size quadraticNodes
      /\ forall k, (k < size quadraticNodes)%N ->
           nth 0 (buildNewtonCoefficients quadraticNodes quadraticValues) k
           = dividedDifference quadraticNodes quadraticValues 0 k].
Proof.
have H0 : uniq quadraticNodes by vm_compute.
have H1 : size quadraticValues = size quadraticNodes by reflexivity.
split; [exact: H0 | exact: H1 |].
exact: (buildNewtonCoefficients_divided_differences H0 H1).
Defined.

Lemma evaluateNewtonAtPoint_newton_form_witness :
  [/\ (0 < size quadraticNodes)%N, size quadraticValues = size quadraticNodes
    & evaluateNewtonAtPoint quadraticNodes quadraticValues (1 / 2%:R)
      = \sum_(0 <= k < size quadraticNodes)
           nth 0 quadraticValues k
           * \prod_(0 <= j < k) (1 / 2%:R - nth 0 quadraticNodes j)].
Proof.
have H1 : (0 < size quadraticNodes)%N by reflexivity.
have H2 : size quadraticValues = size quadraticNodes by reflexivity.
split; [exact: H1 | exact: H2 |].
exact: (evaluateNewtonAtPoint_newton_form (1 / 2%:R) H1 H2).
Defined.

Lemma derivative_kernel_differentiates_interpolant_witness :
  [/\ uniq quadraticNodes, size quadraticValues = size quadraticNodes
    & exists P : {poly rat},
        [/\ (size P <= size quadraticNodes)%N,
            forall t,
              interpolateLagrangeAtPoint quadraticNodes quadraticValues t
              = P.[t]
          & forall t,
              computeLagrangeDerivativeAtPoint quadraticNodes quadraticValues t
              = P^`().[t]]].
Proof.
have H0 : uniq quadraticNodes by vm_compute.
have H1 : size quadraticValues = size quadraticNodes by reflexivity.
split; [exact: H0 | exact: H1 |].
exact: (derivative_kernel_differentiates_interpolant H0 H1).
Defined.

Lemma finite_differences_exact_for_quartics_witness :
  [/\ (size quarticPoly <= 5)%N, (5 <= 6)%N, (4 < 6)%N, (1 / 2%:R : rat) != 0
    & finiteDifference5AtIndex [seq quarticPoly.[t] | t <- gridNodes] 4
        (1 / 2%:R)
      = Ok quarticPoly^`().[-1 + 4%:R * (1 / 2%:R)]].
Proof.
have H1 : (size quarticPoly <= 5)%N by exact: size_quarticPoly.
have H2 : (5 <= 6)%N by reflexivity.
have H3 : (4 < 6)%N by reflexivity.
have H4 : (1 / 2%:R : rat) != 0 by vm_compute.
split; [exact: H1 | exact: H2 | exact: H3 | exact: H4 |].
exact: (finite_differences_exact_for_quartics (-1) H1 H2 H3 H4).
Defined.

Lemma approximation5_exact_on_uniform_grid_witness :
  let Xs := [seq nth 0 gridNodes k | k <- gridIndices] in
  [/\ 0 <= gridTolerance :> rat /\ 0 <= nodeFactor :> rat,
      (size quarticPoly <= 5)%N, (5 <= 6)%N /\ (0 : rat) < 1 / 2%:R,
      (0 < size gridIndices)%N
    & all (fun k => k < 6)%N gridIndices
      /\ differentiateByApproximation5
           (finiteTable gridNodes [seq quarticPoly.[t] | t <- gridNodes])
           (map Fin Xs)
         = Ok (DerivativeResult.mk (map Fin Xs)
                 [seq quarticPoly^`().[t] | t <- Xs])].
Proof.
move=> Xs.
have T1 := decimal_gridTolerance_ge0.
have T2 := decimal_nodeFactor_ge0.
have H1 : (size quarticPoly <= 5)%N by exact: size_quarticPoly.
have H2 : (5 <= 6)%N by reflexivity.
have H3 : (0 : rat) < 1 / 2%:R by vm_compute.
have H4 : (0 < size gridIndices)%N by reflexivity.
have H5 : all (fun k => k < 6)%N gridIndices by reflexivity.
split; [exact: (conj T1 T2) | exact: H1 | exact: (conj H2 H3) | exact: H4 |].
split; [exact: H5 |].
exact: (approximation5_exact_on_uniform_grid (-1) T1 T2 H1 H2 H3 H4 H5).
Defined.


Lemma methods_agree_on_uniform_grid_witness :
  let Xs := [seq nth 0 gridNodes k | k <- gridIndices] in
  [/\ 0 <= gridTolerance :> rat /\ 0 <= nodeFactor :> rat,
      (size quarticPoly <= 5)%N, (5 <= 6)%N /\ (0 : rat) < 1 / 2%:R,
      (0 < size gridIndices)%N
    & all (fun k => k < 6)%N gridIndices
      /\ buildDifferentiationMethodsSummary
           (finiteTable gridNodes [seq quarticPoly.[t] | t <- gridNodes])
           (map Fin Xs)
         = DifferentiationMethodsSummary.mk
             [seq DifferentiationComparisonRow.mk (Fin t)
                    (Some quarticPoly^`().[t]) (Some quarticPoly^`().[t])
                    (Some 0) | t <- Xs]
             (Some 0) (Some 0)].
Proof.
move=> Xs.
have T1 := decimal_gridTolerance_ge0.
have T2 := decimal_nodeFactor_ge0.
have H1 : (size quarticPoly <= 5)%N by exact: size_quarticPoly.
have H2 : (5 <= 6)%N by reflexivity.
have H3 : (0 : rat) < 1 / 2%:R by vm_compute.
have H4 : (0 < size gridIndices)%N by reflexivity.
have H5 : all (fun k => k < 6)%N gridIndices by reflexivity.
split; [exact: (conj T1 T2) | exact: H1 | exact: (conj H2 H3) | exact: H4 |].
split; [exact: H5 |].
exact: (methods_agree_on_uniform_grid (-1) T1 T2 H1 H2 H3 H4 H5).
Defined.

Lemma interpolation_summary_zero_differences_witness :
  let L := interpolateLagrangeAtPoint quadraticNodes quadraticValues in
  [/\ size quadraticValues = size quadraticNodes,
      (2 <= size quadraticNodes)%N,
      isStrictlyIncreasing (map Fin quadraticNodes),
      (0 < size outsidePoints)%N
    & buildInterpolationMethodsSummary
        (finiteTable quadraticNodes quadraticValues) (map Fin outsidePoints)
      = Ok (InterpolationMethodsSummary.mk
              [seq InterpolationComparisonRow.mk (Fin t) (L t) (L t) 0
                 | t <- outsidePoints]
              0 0)].
Proof.
move=> L.
have H1 : size quadraticValues = size quadraticNodes by reflexivity.
have H2 : (2 <= size quadraticNodes)%N by reflexivity.
have H3 : isStrictlyIncreasing (map Fin quadraticNodes) by vm_compute.
have H4 : (0 < size outsidePoints)%N by reflexivity.
split; [exact: H1 | exact: H2 | exact: H3 | exact: H4 |].
exact: (interpolation_summary_zero_differences H1 H2 H3 H4).
Defined.

Lemma interpolation5_five_nodes_witness :
  [/\ isStrictlyIncreasing (map Fin quarticNodes),
      size quarticValues = size quarticNodes,
      size quarticNodes = 5%N,
      (0 < size midPoints)%N
    & all (inSpan quarticNodes) midPoints
      /\ differentiateByInterpolation5
           (finiteTable quarticNodes quarticValues) (map Fin midPoints)
         = Ok (DerivativeResult.mk (map Fin midPoints)
                 [seq computeLagrangeDerivativeAtPoint
                        quarticNodes quarticValues t | t <- midPoints])].
Proof.
have H1 : isStrictlyIncreasing (map Fin quarticNodes) by vm_compute.
have H2 : size quarticValues = size quarticNodes by reflexivity.
have H3 : size quarticNodes = 5%N by reflexivity.
have H4 : (0 < size midPoints)%N by reflexivity.
have H5 : all (inSpan quarticNodes) midPoints by vm_compute.
split; [exact: H1 | exact: H2 | exact: H3 | exact: H4 |].
split; [exact: H5 |].
exact: (interpolation5_five_nodes H1 H2 H3 H4 H5).
Defined.

Lemma accepted_inputs_nest_witness :
  let table := finiteTable quarticNodes quarticValues in
  isOk (differentiateByInterpolation5 table (map Fin midPoints))
  /\ (isOk (interpolateLagrange table (map Fin midPoints))
      /\ isOk (interpolateNewton table (map Fin midPoints))).
Proof.
move=> table.
have H1 : isOk (differentiateByInterpolation5 table (map Fin midPoints)).
  by vm_compute.
split; [exact: H1 |].
exact: (proj2 (accepted_inputs_nest table (map Fin midPoints)) H1).
Defined.

Lemma results_parallel_to_points_witness :
  let table := finiteTable quadraticNodes quadraticValues in
  let X := map Fin outsidePoints in
  let r := InterpolationResult.mk X
             [seq interpolateLagrangeAtPoint quadraticNodes quadraticValues t
                | t <- outsidePoints] in
  interpolateLagrange table X = Ok r
  /\ (InterpolationResult.X r = X /\ size (InterpolationResult.F r) = size X).
Proof.
move=> table X r.
have H1 : interpolateLagrange table X = Ok r.
  have inc : isStrictlyIncreasing (map Fin quadraticNodes) by vm_compute.
  exact: (@interpolateLagrange_finite _ quadraticNodes quadraticValues
            outsidePoints (erefl _) isT inc isT).
split; [exact: H1 |].
case: (results_parallel_to_points table X) => H _ _ _.
exact: (H r H1).
Defined.

Lemma interpolation5_local_polynomial_witness :
  let nodes t := stencilWindow quarticNodes (stencilStart quarticNodes t) in
  let values t := stencilWindow quarticValues (stencilStart quarticNodes t) in
  [/\ isStrictlyIncreasing (map Fin quarticNodes),
      size quarticValues = size quarticNodes,
      (5 <= size quarticNodes)%N,
      (0 < size midPoints)%N
    & all (inSpan quarticNodes) midPoints
      /\ (differentiateByInterpolation5
            (finiteTable quarticNodes quarticValues) (map Fin midPoints)
          = Ok (DerivativeResult.mk (map Fin midPoints)
                  [seq computeLagrangeDerivativeAtPoint (nodes t) (values t) t
                     | t <- midPoints])
          /\ forall t, computeLagrangeDerivativeAtPoint (nodes t) (values t) t
                       = (lagrangePoly (nodes t) (values t))^`().[t])].
Proof.
move=> nodes values.
have H1 : isStrictlyIncreasing (map Fin quarticNodes) by vm_compute.
have H2 : size quarticValues = size quarticNodes by reflexivity.
have H3 : (5 <= size quarticNodes)%N by reflexivity.
have H4 : (0 < size midPoints)%N by reflexivity.
have H5 : all (inSpan quarticNodes) midPoints by vm_compute.
split; [exact: H1 | exact: H2 | exact: H3 | exact: H4 |].
split; [exact: H5 |].
exact: (interpolation5_local_polynomial H1 H2 H3 H4 H5).
Defined.

Lemma nearPoints_inSpan : all (inSpan wideGrid) nearPoints.
Proof. by vm_compute. Qed.

Lemma nearPoints_near_first : ~~ farFromNodes wideGrid 10%:R (1 / 200%:R).
Proof. by apply: (@within_tolerance_near _ _ wideGrid _ _ 0); vm_compute. Qed.

Lemma nearPoints_near_second : ~~ farFromNodes wideGrid 10%:R 10%:R.
Proof. by apply: (@within_tolerance_near _ _ wideGrid _ _ 1); vm_compute. Qed.

Lemma nearPoints_near :
  all (fun t => ~~ farFromNodes wideGrid 10%:R t) nearPoints.
Proof.
apply/andP; split; [exact: nearPoints_near_first |].
apply/andP; split; [exact: nearPoints_near_second | reflexivity].
Qed.

Lemma approximation5_uses_nearest_node_witness :
  [/\ 0 <= gridTolerance :> rat,
      (size quarticPoly <= 5)%N, (5 <= 6)%N /\ (0 : rat) < 10%:R,
      (0 < size nearPoints)%N
    & [/\ all (inSpan wideGrid) nearPoints,
          all (fun t => ~~ farFromNodes wideGrid 10%:R t) nearPoints
        & differentiateByApproximation5
            (finiteTable wideGrid [seq quarticPoly.[t] | t <- wideGrid])
            (map Fin nearPoints)
          = Ok (DerivativeResult.mk (map Fin nearPoints)
                  [seq quarticPoly^`().[nearestNode wideGrid t]
                     | t <- nearPoints])]].
Proof.
have T1 := decimal_gridTolerance_ge0.
have H1 : (size quarticPoly <= 5)%N by exact: size_quarticPoly.
have H2 : (5 <= 6)%N by reflexivity.
have H3 : (0 : rat) < 10%:R by vm_compute.
have H4 : (0 < size nearPoints)%N by reflexivity.
have H5 : all (inSpan wideGrid) nearPoints by exact: nearPoints_inSpan.
have H6 : all (fun t => ~~ farFromNodes wideGrid 10%:R t) nearPoints.
  exact: nearPoints_near.
split; [exact: T1 | exact: H1 | exact: (conj H2 H3) | exact: H4 |].
split; [exact: H5 | exact: H6 |].
exact: (approximation5_uses_nearest_node T1 H1 H2 H3 H4 H5 H6).
Defined.

(** ** Instances of the properties of the file reader *)

Example crlf_file_is_read :
  isParsed
    (parseTabularFile digitsNumber
       (codeUnits "x 1 2 3 4 5" ++ [:: 13; 10]%binN
        ++ codeUnits "f 5 4 3 2 1" ++ [:: 10; 10]%binN)).
Proof. by vm_compute. Qed.

Lemma parseLines_rows_witness :
  exists r,
    parseLines digitsNumber sampleLines = Parsed r
    /\ [/\ count (hasLabel digitsNumber Row_x) sampleLines = 1%N,
           count (hasLabel digitsNumber Row_f) sampleLines = 1%N,
           (count (hasLabel digitsNumber Row_X) sampleLines <= 1)%N,
           count (hasLabel digitsNumber Row_X) sampleLines = 0%N ->
             ParsedTabularFile.X r = [::]
         & forall line, line \in sampleLines -> size (trim line) != 0%N ->
             exists label values,
               parseLabeledRow digitsNumber (trim line)
               = Parsed (label, values)
               /\ rowValues r label = values].
Proof.
have H : isParsed (parseLines digitsNumber sampleLines) by vm_compute.
case E: (parseLines digitsNumber sampleLines) H => [r|] // _.
exists r; split; [reflexivity |].
exact: (parseLines_rows E).
Defined.

Lemma parseLines_any_order_witness :
  exists r,
    [/\ Permutation sampleLines shuffledLines,
        parseLines digitsNumber sampleLines = Parsed r
      & parseLines digitsNumber shuffledLines = Parsed r].
Proof.
have H : isParsed (parseLines digitsNumber sampleLines) by vm_compute.
have H1 : Permutation sampleLines shuffledLines by exact: perm_swap.
case E: (parseLines digitsNumber sampleLines) H => [r|] // _.
exists r; split; [exact: H1 | reflexivity |].
exact: (parseLines_any_order H1 E).
Defined.

Lemma parsed_file_is_finite_witness :
  exists r,
    parseLines digitsNumber sampleLines = Parsed r
    /\ ((exists (x f Xs : seq rat),
           [/\ r = ParsedTabularFile.mk (finiteTable x f) (map Fin Xs),
               (0 < size x)%N & (0 < size f)%N])
        /\ forall minPoints,
             failsOnlyWith shapeMessage
               (validateTabular (ParsedTabularFile.table r) minPoints)).
Proof.
have H : isParsed (parseLines digitsNumber sampleLines) by vm_compute.
case E: (parseLines digitsNumber sampleLines) H => [r|] // _.
exists r; split; [reflexivity |].
exact: (parsed_file_is_finite E).
Defined.

Lemma one_line_file_is_rejected_witness :
  10%binN \notin codeUnits "x 1 2 3"
  /\ ~~ isParsed (parseTabularFile digitsNumber (codeUnits "x 1 2 3")).
Proof.
have H1 : 10%binN \notin codeUnits "x 1 2 3" by vm_compute.
split; [exact: H1 |].
exact: (one_line_file_is_rejected digitsNumber H1).
Defined.
